(** * cpass: the password generator and its entropy estimator

    A shallow embedding of [generator/generator.go] and of the entropy
    rating of [main.go].  Machine integers are [Z] with their wrap-around
    written out, [big.Int] is [Z], bytes are [Byte.byte], and the calls to
    [crypto/rand] read an explicit tape of answers. *)

From Stdlib Require Import ZArith List Bool Lia.
From Stdlib Require Import Strings.String Strings.Ascii Strings.Byte.
From Stdlib Require Import Floats.PrimFloat Numbers.Cyclic.Int63.Uint63.
Import ListNotations.

Local Open Scope Z_scope.

(** ** Machine integers *)

Definition wrap32 (x : Z) : Z := x mod 2 ^ 32.
Definition wrap64 (x : Z) : Z := x mod 2 ^ 64.
Definition wrap8 (x : Z) : Z := x mod 2 ^ 8.

Definition is_uint32 (x : Z) : Prop := 0 <= x < 2 ^ 32.

Definition byte_of_Z (x : Z) : byte :=
  match Byte.of_N (Z.to_N (wrap8 x)) with
  | Some b => b
  | None => x00
  end.

Definition Z_of_byte (b : byte) : Z := Z.of_N (Byte.to_N b).

(** ** [math/big] *)

(** [big.Int.BitLen]: the length of the absolute value in bits, 0 for 0. *)
Definition BitLen (x : Z) : Z :=
  match x with
  | Z0 => 0
  | Zpos p => Zpos (Pos.size p)
  | Zneg p => Zpos (Pos.size p)
  end.

(** [z.Exp(x, y, m)] with [m = 0]: [x ** y], and 1 when [y <= 0]. *)
Definition Exp0 (x y : Z) : Z := if y <=? 0 then 1 else x ^ y.

(** ** [crypto/sha512]

    [sha512.Sum512] after FIPS 180-4, on 64-bit words held in [Z]. *)

Module SHA512.

(** The low 64 bits. *)
Definition low64 (x : Z) : Z := Z.land x 0xffffffffffffffff.
Definition add64 (x y : Z) : Z := low64 (x + y).
Definition rotr (n x : Z) : Z :=
  Z.lor (Z.shiftr x n) (low64 (Z.shiftl x (64 - n))).
Definition not64 (x : Z) : Z := Z.lxor x 0xffffffffffffffff.

Definition Ch (x y z : Z) : Z := Z.lxor (Z.land x y) (Z.land (not64 x) z).
Definition Maj (x y z : Z) : Z :=
  Z.lxor (Z.lxor (Z.land x y) (Z.land x z)) (Z.land y z).
Definition bigSigma0 (x : Z) : Z :=
  Z.lxor (Z.lxor (rotr 28 x) (rotr 34 x)) (rotr 39 x).
Definition bigSigma1 (x : Z) : Z :=
  Z.lxor (Z.lxor (rotr 14 x) (rotr 18 x)) (rotr 41 x).
Definition smallSigma0 (x : Z) : Z :=
  Z.lxor (Z.lxor (rotr 1 x) (rotr 8 x)) (Z.shiftr x 7).
Definition smallSigma1 (x : Z) : Z :=
  Z.lxor (Z.lxor (rotr 19 x) (rotr 61 x)) (Z.shiftr x 6).

Definition K : list Z :=
  [ 0x428a2f98d728ae22; 0x7137449123ef65cd; 0xb5c0fbcfec4d3b2f; 0xe9b5dba58189dbbc;
    0x3956c25bf348b538; 0x59f111f1b605d019; 0x923f82a4af194f9b; 0xab1c5ed5da6d8118;
    0xd807aa98a3030242; 0x12835b0145706fbe; 0x243185be4ee4b28c; 0x550c7dc3d5ffb4e2;
    0x72be5d74f27b896f; 0x80deb1fe3b1696b1; 0x9bdc06a725c71235; 0xc19bf174cf692694;
    0xe49b69c19ef14ad2; 0xefbe4786384f25e3; 0x0fc19dc68b8cd5b5; 0x240ca1cc77ac9c65;
    0x2de92c6f592b0275; 0x4a7484aa6ea6e483; 0x5cb0a9dcbd41fbd4; 0x76f988da831153b5;
    0x983e5152ee66dfab; 0xa831c66d2db43210; 0xb00327c898fb213f; 0xbf597fc7beef0ee4;
    0xc6e00bf33da88fc2; 0xd5a79147930aa725; 0x06ca6351e003826f; 0x142929670a0e6e70;
    0x27b70a8546d22ffc; 0x2e1b21385c26c926; 0x4d2c6dfc5ac42aed; 0x53380d139d95b3df;
    0x650a73548baf63de; 0x766a0abb3c77b2a8; 0x81c2c92e47edaee6; 0x92722c851482353b;
    0xa2bfe8a14cf10364; 0xa81a664bbc423001; 0xc24b8b70d0f89791; 0xc76c51a30654be30;
    0xd192e819d6ef5218; 0xd69906245565a910; 0xf40e35855771202a; 0x106aa07032bbd1b8;
    0x19a4c116b8d2d0c8; 0x1e376c085141ab53; 0x2748774cdf8eeb99; 0x34b0bcb5e19b48a8;
    0x391c0cb3c5c95a63; 0x4ed8aa4ae3418acb; 0x5b9cca4f7763e373; 0x682e6ff3d6b2b8a3;
    0x748f82ee5defb2fc; 0x78a5636f43172f60; 0x84c87814a1f0ab72; 0x8cc702081a6439ec;
    0x90befffa23631e28; 0xa4506cebde82bde9; 0xbef9a3f7b2c67915; 0xc67178f2e372532b;
    0xca273eceea26619c; 0xd186b8c721c0c207; 0xeada7dd6cde0eb1e; 0xf57d4f7fee6ed178;
    0x06f067aa72176fba; 0x0a637dc5a2c898a6; 0x113f9804bef90dae; 0x1b710b35131c471b;
    0x28db77f523047d84; 0x32caab7b40c72493; 0x3c9ebe0a15c9bebc; 0x431d67c49c100d4c;
    0x4cc5d4becb3e42b6; 0x597f299cfc657e2a; 0x5fcb6fab3ad6faec; 0x6c44198c4a475817 ].

Definition H0 : list Z :=
  [ 0x6a09e667f3bcc908; 0xbb67ae8584caa73b; 0x3c6ef372fe94f82b; 0xa54ff53a5f1d36f1;
    0x510e527fade682d1; 0x9b05688c2b3e6c1f; 0x1f83d9abfb41bd6b; 0x5be0cd19137e2179 ].

(** Big-endian packing of bytes into a number, and back. *)
Definition be_to_Z (bs : list Z) : Z :=
  fold_left (fun acc b => acc * 256 + b) bs 0.

Fixpoint Z_to_be (n : nat) (x : Z) : list Z :=
  match n with
  | O => []
  | S n' => Z_to_be n' (x / 256) ++ [x mod 256]
  end.

Fixpoint chunks (fuel size : nat) (l : list Z) : list (list Z) :=
  match fuel with
  | O => []
  | S fuel' =>
      match l with
      | [] => []
      | _ => firstn size l :: chunks fuel' size (skipn size l)
      end
  end.

(** The message followed by 0x80, zeros up to 112 modulo 128, and the
    bit length of the message on 16 bytes. *)
Definition pad (msg : list Z) : list Z :=
  let len := Z.of_nat (List.length msg) in
  let zeros := (111 - len) mod 128 in
  msg ++ [0x80] ++ repeat 0 (Z.to_nat zeros) ++ Z_to_be 16 (8 * len).

(** One round: the working variables [a..h], and the sixteen latest words
    of the message schedule, the oldest first. *)
Definition round (st : list Z * list Z) (k : Z) : list Z * list Z :=
  match st with
  | ([a; b; c; d; e; f; g; h], w) =>
      let wt := nth 0 w 0 in
      let t1 := add64 (add64 (add64 (add64 h (bigSigma1 e)) (Ch e f g)) k) wt in
      let t2 := add64 (bigSigma0 a) (Maj a b c) in
      let wnew :=
        add64 (add64 (add64 (smallSigma1 (nth 14 w 0)) (nth 9 w 0))
                     (smallSigma0 (nth 1 w 0))) wt in
      ([add64 t1 t2; a; b; c; add64 d t1; e; f; g], tl w ++ [wnew])
  | _ => st
  end.

Definition compress (h : list Z) (block : list Z) : list Z :=
  let w := map be_to_Z (chunks 16 8 block) in
  let '(v, _) := fold_left round K (h, w) in
  map (fun p => add64 (fst p) (snd p)) (combine h v).

Definition Sum512 (data : list byte) : list byte :=
  let msg := pad (map Z_of_byte data) in
  let h := fold_left compress (chunks (List.length msg) 128 msg) H0 in
  map byte_of_Z (List.concat (map (Z_to_be 8) h)).

End SHA512.


(** ** Results *)

(** The error kinds of the specification.  [errors.Wrap] only prefixes the
    message, so a wrapped error keeps its kind. *)
Inductive error : Type :=
| ValidationError
| EntropySourceError
| InternalInvariantError.

(** What a call comes to: a value, an [error] value, or a run-time panic. *)
Inductive result (A : Type) : Type :=
| Ok (a : A)
| Err (e : error)
| Panic.

Arguments Ok {A} a.
Arguments Err {A} e.
Arguments Panic {A}.

(** ** Charsets *)

Definition letterCharset : list byte := list_byte_of_string "abcdefghijkmnpqrstuvwxyz".
Definition digitCharset : list byte := list_byte_of_string "0123456789".
Definition specialCharset : list byte := list_byte_of_string "~!@#$%^&*_+[]/?<>.".

(** [len(s)] of a Go string: its length in bytes. *)
Definition len (s : list byte) : Z := Z.of_nat (List.length s).

(** ** The generator's configuration *)

Record Generator : Type := mkGenerator {
  length : Z;
  uppercaseCount : Z;
  digitCount : Z;
  specialCount : Z
}.

Definition NewGenerator (length_ uppercaseCount_ digitCount_ specialCount_ : Z)
  : result Generator :=
  let g := mkGenerator length_ uppercaseCount_ digitCount_ specialCount_ in
  if 128 <? g.(length) then Err ValidationError
  else if g.(length) <?
          wrap32 (wrap32 (g.(uppercaseCount) + g.(digitCount)) + g.(specialCount))
  then Err ValidationError
  else Ok g.

(** ** Entropy *)

Definition EntropyMax (g : Generator) : Z :=
  let possibleChars := wrap64 (1 + len letterCharset) in
  let possibleChars :=
    if g.(uppercaseCount) =? 0 then possibleChars
    else wrap64 (possibleChars + len letterCharset) in
  let possibleChars :=
    if g.(digitCount) =? 0 then possibleChars
    else wrap64 (possibleChars + len digitCharset) in
  let possibleChars :=
    if g.(specialCount) =? 0 then possibleChars
    else wrap64 (possibleChars + len specialCharset) in
  let possibleCombinations := Exp0 possibleChars g.(length) in
  let possibleCombinations := possibleCombinations - 1 in
  wrap64 (BitLen possibleCombinations).

(** The closure of [EntropyMin], with the captured [possibleCombinations]
    passed in and handed back. *)
Definition addPossibleCombinationsFn
  (possibleCombinations : Z) (charset : list byte) (count : Z) : Z :=
  let charsetLength := wrap64 (1 + len charset) in
  possibleCombinations * Exp0 charsetLength count.

Definition EntropyMin (g : Generator) : result Z :=
  let possibleCombinations := 1 in
  let nonBaseCount :=
    wrap32 (wrap32 (g.(uppercaseCount) + g.(digitCount)) + g.(specialCount)) in
  if g.(length) <? nonBaseCount then Err ValidationError
  else
    let baseChars := wrap32 (g.(length) - nonBaseCount) in
    let possibleCombinations :=
      addPossibleCombinationsFn possibleCombinations letterCharset baseChars in
    let possibleCombinations :=
      addPossibleCombinationsFn possibleCombinations letterCharset g.(uppercaseCount) in
    let possibleCombinations :=
      addPossibleCombinationsFn possibleCombinations digitCharset g.(digitCount) in
    let possibleCombinations :=
      addPossibleCombinationsFn possibleCombinations specialCharset g.(specialCount) in
    let possibleCombinations := possibleCombinations - 1 in
    Ok (wrap64 (BitLen possibleCombinations)).

(** ** The report of [main] *)

(** [float64(x)] of a [uint64]; exact below [2^53], and the bit lengths
    converted here stay below [2^35]. *)
Definition float64_of_uint64 (x : Z) : float := PrimFloat.of_uint63 (Uint63.of_Z x).

(** [entropyAvg := (float64(g.EntropyMax()) + float64(entropyMin)) / 2] *)
Definition entropyAvg (entropyMax entropyMin : Z) : float :=
  PrimFloat.div
    (PrimFloat.add (float64_of_uint64 entropyMax) (float64_of_uint64 entropyMin))
    2%float.

Definition getRatingString (entropyBits : float) : string :=
  if PrimFloat.leb entropyBits 32%float then "Very Poor"
  else if PrimFloat.leb entropyBits 48%float then "Poor"
  else if PrimFloat.leb entropyBits 72%float then "Weak"
  else if PrimFloat.leb entropyBits 96%float then "Good"
  else if PrimFloat.leb entropyBits 120%float then "Excellent"
  else "Overkill".

(** ** The password buffer and the entropy source

    [Generate] works on one byte slice: [generateBase] allocates it and the
    three passes mutate it in place through [ptr].  The state holds that
    slice, the place reached on the tape of [crypto/rand]'s answers, and a
    ghost history of every content the slice has held, newest first. *)

Record state : Type := mkState {
  cursor : Z;
  buf : list byte;
  hist : list (list byte)
}.

Definition initial : state := mkState 0 [] [].

Definition M (A : Type) : Type := state -> result A * state.

Definition ret {A : Type} (a : A) : M A := fun s => (Ok a, s).

Definition bind {A B : Type} (m : M A) (k : A -> M B) : M B :=
  fun s =>
    match m s with
    | (Ok a, s') => k a s'
    | (Err e, s') => (Err e, s')
    | (Panic, s') => (Panic, s')
    end.

Definition fail {A : Type} (e : error) : M A := fun s => (Err e, s).

Definition lift {A : Type} (r : result A) : M A := fun s => (r, s).

Notation "x <- m ;; k" := (bind m (fun x => k))
  (at level 61, m at next level, right associativity).
Notation "m ;;; k" := (bind m (fun _ => k))
  (at level 61, right associativity).

Fixpoint update (l : list byte) (i : nat) (x : byte) : list byte :=
  match l, i with
  | [], _ => []
  | _ :: l', O => x :: l'
  | y :: l', S i' => y :: update l' i' x
  end.

(** [make([]byte, n)] *)
Definition alloc (n : Z) : M unit :=
  fun s =>
    let b := repeat x00 (Z.to_nat n) in
    (Ok tt, mkState s.(cursor) b (b :: s.(hist))).

(** [ptr[i]] *)
Definition load (i : Z) : M byte :=
  fun s =>
    if (0 <=? i) && (i <? len s.(buf)) then
      match nth_error s.(buf) (Z.to_nat i) with
      | Some b => (Ok b, s)
      | None => (Panic, s)
      end
    else (Panic, s).

(** [ptr[i] = x] *)
Definition store (i : Z) (x : byte) : M unit :=
  fun s =>
    if (0 <=? i) && (i <? len s.(buf)) then
      let b := update s.(buf) (Z.to_nat i) x in
      (Ok tt, mkState s.(cursor) b (b :: s.(hist)))
    else (Panic, s).

Definition current : M (list byte) := fun s => (Ok s.(buf), s).

(** The little-endian base-256 digits of [v], [n] of them. *)
Fixpoint bytes_of (n : nat) (v : Z) : list byte :=
  match n with
  | O => []
  | S n' => byte_of_Z v :: bytes_of n' (v / 256)
  end.

(** [string(char)] of a byte: the UTF-8 encoding of the rune [char]. *)
Definition string_of_byte (c : byte) : list byte :=
  let r := Z_of_byte c in
  if r <? 128 then [c]
  else [byte_of_Z (Z.lor 192 (Z.shiftr r 6)); byte_of_Z (Z.lor 128 (Z.land r 63))].

Fixpoint hasPrefix (s prefix : list byte) : bool :=
  match prefix, s with
  | [], _ => true
  | _ :: _, [] => false
  | x :: prefix', y :: s' => Byte.eqb x y && hasPrefix s' prefix'
  end.

(** [strings.Contains(s, substr)] *)
Fixpoint strings_Contains (s substr : list byte) : bool :=
  hasPrefix s substr ||
  match s with
  | [] => false
  | _ :: s' => strings_Contains s' substr
  end.

(** [unicode.ToUpper] on the runes a byte converts to: the ASCII fast path
    and the Latin-1 rows of [unicode.CaseRanges]. *)
Definition ToUpper (r : Z) : Z :=
  if (97 <=? r) && (r <=? 122) then r - 32
  else if r =? 181 then r + 743
  else if (224 <=? r) && (r <=? 246) then r - 32
  else if (248 <=? r) && (r <=? 254) then r - 32
  else if r =? 255 then r + 121
  else r.

(** [charset[b%byte(len(charset))]]: the division panics on a zero
    divisor, the indexing out of range. *)
Definition charsetAt (charset : list byte) (b : byte) : result byte :=
  let n := wrap8 (len charset) in
  if n =? 0 then Panic
  else
    match nth_error charset (Z.to_nat (Z_of_byte b mod n)) with
    | Some c => Ok c
    | None => Panic
    end.

(** The bound of the inner loop of [seekNonBaseLetterAndApply]. *)
Definition maxAttempts : Z := 100000.

Section Generation.

(** [rand.Reader] as the tape of its answers: the k-th call of
    [crypto/rand] is answered from [reader k], [None] when the source
    fails.  [rand.Int] and [rand.Read] are taken by their documented
    contracts, so every outcome they allow is the answer of some tape. *)
Variable reader : Z -> option Z.

Variable g : Generator.

Definition advance (s : state) : state :=
  mkState (s.(cursor) + 1) s.(buf) s.(hist).

(** [rand.Int(rand.Reader, max)]: a number of [[0, max)], here the answer
    of the tape reduced into that range, an error of the source, or a
    panic when [max <= 0]. *)
Definition rand_Int (max : Z) : M Z :=
  fun s =>
    if max <=? 0 then (Panic, s)
    else
      match reader s.(cursor) with
      | Some v => (Ok (v mod max), advance s)
      | None => (Err EntropySourceError, advance s)
      end.

(** [rand.Read(b)] on a slice of [n] bytes: [n] bytes, here the low
    base-256 digits of the answer of the tape, or an error of the source. *)
Definition rand_Read (n : Z) : M (list byte) :=
  fun s =>
    match reader s.(cursor) with
    | Some v => (Ok (bytes_of (Z.to_nat n) v), advance s)
    | None => (Err EntropySourceError, advance s)
    end.

Definition secureRandomByte : M byte :=
  bufLen <- rand_Int 1024 ;;
  b <- rand_Read bufLen ;;
  let h := SHA512.Sum512 b in
  let pos := Z_of_byte (nth 5 h x00) mod wrap8 (len h) in
  ret (nth (Z.to_nat pos) h x00).

Definition secureRandomChar (charset : list byte) : M byte :=
  b <- secureRandomByte ;;
  lift (charsetAt charset b).

(** The loop of [generateBase], [n] iterations from index [i]. *)
Fixpoint generateBase_loop (n : nat) (i : Z) : M unit :=
  match n with
  | O => ret tt
  | S n' =>
      b <- secureRandomChar letterCharset ;;
      store i b ;;;
      generateBase_loop n' (i + 1)
  end.

Definition generateBase : M unit :=
  alloc g.(length) ;;;
  generateBase_loop (Z.to_nat g.(length)) 0.

(** The inner loop of [seekNonBaseLetterAndApply], [fuel] iterations of it
    left: the value is the flag [ok]. *)
Fixpoint seek_attempts (applyFn : byte -> M byte) (fuel : nat) : M bool :=
  match fuel with
  | O => ret false
  | S fuel' =>
      pos <- rand_Int g.(length) ;;
      char <- load pos ;;
      if negb (strings_Contains letterCharset (string_of_byte char))
      then seek_attempts applyFn fuel'
      else
        newChar <- applyFn char ;;
        store pos newChar ;;;
        ret true
  end.

(** The outer loop of [seekNonBaseLetterAndApply], [n] substitutions left. *)
Fixpoint seek_each (applyFn : byte -> M byte) (n : nat) : M unit :=
  match n with
  | O => ret tt
  | S n' =>
      ok <- seek_attempts applyFn (Z.to_nat maxAttempts) ;;
      if ok then seek_each applyFn n' else fail InternalInvariantError
  end.

Definition seekNonBaseLetterAndApply (count : Z) (applyFn : byte -> M byte) : M unit :=
  seek_each applyFn (Z.to_nat count).

Definition applyUppercase : M unit :=
  seekNonBaseLetterAndApply g.(uppercaseCount)
    (fun b => ret (byte_of_Z (ToUpper (Z_of_byte b)))).

Definition applyDigits : M unit :=
  seekNonBaseLetterAndApply g.(digitCount)
    (fun _ => secureRandomChar digitCharset).

Definition applySpecial : M unit :=
  seekNonBaseLetterAndApply g.(specialCount)
    (fun _ => secureRandomChar specialCharset).

Definition Generate : M (list byte) :=
  generateBase ;;;
  applyUppercase ;;;
  applyDigits ;;;
  applySpecial ;;;
  current.

End Generation.

(** ** The vocabulary of the properties *)

(** The configurations the specification calls valid. *)
Definition valid (g : Generator) : Prop :=
  is_uint32 g.(length) /\ is_uint32 g.(uppercaseCount) /\
  is_uint32 g.(digitCount) /\ is_uint32 g.(specialCount) /\
  g.(length) <= 128 /\
  g.(uppercaseCount) + g.(digitCount) + g.(specialCount) <= g.(length).

Inductive charClass : Type := Lowercase | Uppercase | Digit | Special.

Definition toUpperByte (b : byte) : byte := byte_of_Z (ToUpper (Z_of_byte b)).

Definition members (k : charClass) : list byte :=
  match k with
  | Lowercase => letterCharset
  | Uppercase => map toUpperByte letterCharset
  | Digit => digitCharset
  | Special => specialCharset
  end.

Definition mem (b : byte) (l : list byte) : bool := existsb (Byte.eqb b) l.

Definition in_class (k : charClass) (b : byte) : bool := mem b (members k).

Definition classes_of (b : byte) : list charClass :=
  filter (fun k => in_class k b) [Lowercase; Uppercase; Digit; Special].

Definition count (p : byte -> bool) (l : list byte) : Z :=
  Z.of_nat (List.length (filter p l)).

(** The letters left out of the charset as ambiguous, in both cases. *)
Definition ambiguous (b : byte) : bool := mem b (list_byte_of_string "loLO").

Definition all_bytes : list byte := map byte_of_Z (map Z.of_nat (seq 0 256)).

(** How many of the 256 byte values [charsetAt] sends to [c]. *)
Definition preimages (charset : list byte) (c : byte) : Z :=
  count (fun b => match charsetAt charset b with
                  | Ok c' => Byte.eqb c' c
                  | _ => false
                  end) all_bytes.

(** [n] is the length in bits of the natural number [x]. *)
Definition bit_length_of (x n : Z) : Prop :=
  (x = 0 /\ n = 0) \/ (0 < n /\ 2 ^ (n - 1) <= x < 2 ^ n).

(** The pool of [EntropyMax] as the specification words it. *)
Definition pool (g : Generator) : Z :=
  1 + 24 + (if 0 <? g.(uppercaseCount) then 24 else 0)
         + (if 0 <? g.(digitCount) then 10 else 0)
         + (if 0 <? g.(specialCount) then 18 else 0).

(** The number of combinations of [EntropyMin] as the specification words it. *)
Definition minCombinations (g : Generator) : Z :=
  let baseCount :=
    g.(length) - (g.(uppercaseCount) + g.(digitCount) + g.(specialCount)) in
  (1 + 24) ^ baseCount * (1 + 24) ^ g.(uppercaseCount)
  * (1 + 10) ^ g.(digitCount) * (1 + 18) ^ g.(specialCount) - 1.

(** A tape that answers every call with [v]. *)
Definition constant_tape (v : Z) : Z -> option Z := fun _ => Some v.


(** A byte that belongs to exactly one of the four classes. *)
Definition one_class (b : byte) : Prop := List.length (classes_of b) = 1%nat.

Definition charClass_eqb (j k : charClass) : bool :=
  match j, k with
  | Lowercase, Lowercase | Uppercase, Uppercase
  | Digit, Digit | Special, Special => true
  | _, _ => false
  end.

(** What one substitution into class [k] adds to the count of class [j]. *)
Definition delta (k j : charClass) : Z :=
  Z.b2z (charClass_eqb j k) - Z.b2z (charClass_eqb j Lowercase).

(** [b'] is [b] after [n] base letters were replaced by members of [k]. *)
Definition substituted (k : charClass) (n : Z) (b b' : list byte) : Prop :=
  List.length b' = List.length b /\
  (forall j, count (in_class j) b' = count (in_class j) b + n * delta k j) /\
  (Forall one_class b -> Forall one_class b').

(** No ambiguous letter in a content of the slice. *)
Definition clean (l : list byte) : Prop := Forall (fun c => ambiguous c = false) l.

(** The slice and its history are the same in both states. *)
Definition frame (s s' : state) : Prop :=
  s'.(buf) = s.(buf) /\ s'.(hist) = s.(hist).

(** A computation that only draws: it leaves the slice alone, fails on
    the entropy source only, and its values satisfy [Q]. *)
Definition draws {A : Type} (m : M A) (Q : A -> Prop) : Prop :=
  forall s,
    match m s with
    | (Ok a, s') => Q a /\ frame s s'
    | (Err e, s') => e = EntropySourceError /\ frame s s'
    | (Panic, s') => frame s s'
    end.

(** The state in which a substitution gives up: a base letter is left in
    the slice, and the last [maxAttempts] answers of the tape, all
    positions, each fell on a byte that is no base letter. *)
Definition deadlock_window (reader : Z -> option Z) (g : Generator) (s : state)
  : Prop :=
  0 < count (in_class Lowercase) s.(buf) /\
  exists c0, s.(cursor) = c0 + maxAttempts /\
    forall j, 0 <= j < maxAttempts ->
      exists v, reader (c0 + j) = Some v /\
        in_class Lowercase
          (nth (Z.to_nat (v mod g.(length))) s.(buf) x00) = false.

(** Neither the slice nor any content it has held has an ambiguous letter. *)
Definition tidy (s : state) : Prop := clean s.(buf) /\ Forall clean s.(hist).

(** The first [i] bytes of [b] are base letters. *)
Definition filled (i : nat) (b : list byte) : Prop :=
  forall p c, (p < i)%nat -> nth_error b p = Some c -> in_class Lowercase c = true.

(** A computation that keeps a tidy state tidy, whatever it comes to. *)
Definition keeps_tidy {A : Type} (m : M A) : Prop :=
  forall s, tidy s -> tidy (snd (m s)).

(** A configuration whose second substitution has no letter left but the
    one the first took, on a tape that always answers 0. *)
Definition two_uppercase : Generator := mkGenerator 2 2 0 0.

(** A tape whose k-th answer is [k / 2]. *)
Definition halving_tape : Z -> option Z := fun k => Some (k / 2).

Definition hex_digit (x : Z) : ascii :=
  ascii_of_nat (Z.to_nat (if x <? 10 then 48 + x else 87 + x)).

Fixpoint hex_of_bytes (bs : list byte) : string :=
  match bs with
  | [] => EmptyString
  | b :: bs' =>
      String (hex_digit (Z_of_byte b / 16))
        (String (hex_digit (Z_of_byte b mod 16)) (hex_of_bytes bs'))
  end.

(** The configuration of the worked example of the README. *)
Definition readme_example : Generator := mkGenerator 14 2 1 1.

(** ** More vocabulary *)

(** A computation that never panics. *)
Definition quiet {A : Type} (m : M A) : Prop :=
  forall s, fst (m s) <> Panic.

(** A computation whose entropy error is the answer of the tape it took
    last. *)
Definition blames (reader : Z -> option Z) {A : Type} (m : M A) : Prop :=
  forall s,
    fst (m s) = Err EntropySourceError ->
    reader ((snd (m s)).(cursor) - 1) = None.

(** A tape that answers 0 to its first [n] calls and fails from then on. *)
Definition tape_failing_at (n : Z) : Z -> option Z :=
  fun k => if k <? n then Some 0 else None.

(** A configuration of length 0 that [NewGenerator] accepts: its counts add
    up to [2^32]. *)
Definition wrapped_empty : Generator := mkGenerator 0 4294967295 1 0.

(** The byte [y] at a position that held [x] before a pass: the same byte,
    or what [P] allows in the place of a base letter [x]. *)
Definition changed_to (P : byte -> byte -> Prop) (x y : byte) : Prop :=
  y = x \/ (in_class Lowercase x = true /\ P x y).

(** ** [main.go]: the check of the length *)

(** [isPowerOfTwo[T constraints.Unsigned]] at [uint32], the type [main]
    calls it at. *)
Definition isPowerOfTwo (v : Z) : bool :=
  (0 <? v) && (Z.land v (wrap32 (v - 1)) =? 0).

(** The rating as a function of [entropyMin + entropyMax], in whole bits. *)
Definition rating_of_sum (sum : Z) : string :=
  if sum <=? 64 then "Very Poor"
  else if sum <=? 96 then "Poor"
  else if sum <=? 144 then "Weak"
  else if sum <=? 192 then "Good"
  else if sum <=? 240 then "Excellent"
  else "Overkill".

(** [getRatingString] of the average agrees with [rating_of_sum] for every
    [entropyMax] below [a] and [entropyMin] below [b]. *)
Definition ratings_agree (a b : nat) : bool :=
  let xs := map Z.of_nat (seq 0 a) in
  let ys := map Z.of_nat (seq 0 b) in
  forallb
    (fun x =>
       forallb
         (fun y =>
            String.eqb (getRatingString (entropyAvg x y))
                       (rating_of_sum (x + y)))
         ys)
    xs.

(** ** [main.go]: reading the parameters

    Standard input is the list of the bytes left to read, its end the end
    of the file; the prompts that are printed are left out. *)

(** What a question comes to: the answer and the input left, an error
    ([err != nil], on which [main] prints it and exits with status 1), or
    a panic. *)
Inductive asked (A : Type) : Type :=
| Answer (a : A) (rest : list byte)
| AskError
| AskPanic.

Arguments Answer {A} a rest.
Arguments AskError {A}.
Arguments AskPanic {A}.

(** [stdinReader.ReadBytes('\n')]: the bytes up to the first newline, that
    newline included, and the input left; an error when the input ends
    before a newline. *)
Fixpoint ReadBytes (stdin : list byte) : option (list byte * list byte) :=
  match stdin with
  | [] => None
  | c :: stdin' =>
      if Byte.eqb c x0a then Some ([c], stdin')
      else
        match ReadBytes stdin' with
        | Some (line, rest) => Some (c :: line, rest)
        | None => None
        end
  end.

(** [strings.ReplaceAll(s, "\n", "")] *)
Definition ReplaceAll_newline (s : list byte) : list byte :=
  filter (fun c => negb (Byte.eqb c x0a)) s.

Definition is_digit (c : byte) : bool :=
  (48 <=? Z_of_byte c) && (Z_of_byte c <=? 57).

(** The loop of [strconv.ParseUint] at base 10: a byte that is no digit is
    an error of syntax (a letter is a digit of 10 or more), a value past
    [maxVal] an error of range. *)
Fixpoint ParseUint_loop (maxVal : Z) (s : list byte) (n : Z) : option Z :=
  match s with
  | [] => Some n
  | c :: s' =>
      if is_digit c then
        let d := Z_of_byte c - 48 in
        if (2 ^ 64 - 1) / 10 + 1 <=? n then None
        else
          let n := wrap64 (n * 10) in
          let n1 := wrap64 (n + d) in
          if (n1 <? n) || (maxVal <? n1) then None
          else ParseUint_loop maxVal s' n1
      else None
  end.

(** [strconv.ParseUint(s, 10, 32)]; [None] is either of its errors. *)
Definition ParseUint (s : list byte) : option Z :=
  match s with
  | [] => None
  | _ :: _ => ParseUint_loop (2 ^ 32 - 1) s 0
  end.

Definition askUint32 (stdin : list byte) : asked Z :=
  match ReadBytes stdin with
  | None => AskError
  | Some (b, rest) =>
      match ParseUint (ReplaceAll_newline b) with
      | None => AskError
      | Some v => Answer (wrap32 v) rest
      end
  end.

Definition lower_ascii (c : byte) : byte :=
  if (65 <=? Z_of_byte c) && (Z_of_byte c <=? 90)
  then byte_of_Z (Z_of_byte c + 32)
  else c.

(** [strings.EqualFold(s, t)] for a [t] of ASCII letters that no rune
    outside ASCII folds to, as the "y" it is called with: equality of the
    bytes up to the case of ASCII letters. *)
Fixpoint EqualFold (s t : list byte) : bool :=
  match s, t with
  | [], [] => true
  | a :: s', b :: t' => Byte.eqb (lower_ascii a) (lower_ascii b) && EqualFold s' t'
  | _, _ => false
  end.

Definition askYesNo (stdin : list byte) : asked bool :=
  match ReadBytes stdin with
  | None => AskError
  | Some (b, rest) =>
      match b with
      | [] => AskPanic
      | c :: _ => Answer (EqualFold (string_of_byte c) (list_byte_of_string "y")) rest
      end
  end.

(** The loop of [main] that asks for the length, [fuel] turns of it left;
    [None] when the turns run out. *)
Fixpoint main_length (fuel : nat) (stdin : list byte) : option (asked Z) :=
  match fuel with
  | O => None
  | S fuel' =>
      match askUint32 stdin with
      | Answer pwLen rest =>
          if (pwLen mod 10 =? 0) || isPowerOfTwo pwLen then
            match askYesNo rest with
            | Answer yes rest' =>
                if negb yes then Some (Answer pwLen rest')
                else main_length fuel' rest'
            | AskError => Some AskError
            | AskPanic => Some AskPanic
            end
          else Some (Answer pwLen rest)
      | AskError => Some AskError
      | AskPanic => Some AskPanic
      end
  end.

(** The value of a string of decimal digits. *)
Definition digits_value (ds : list byte) : Z :=
  fold_left (fun acc c => acc * 10 + (Z_of_byte c - 48)) ds 0.

(** ** [main.go]: the run

    What [main] prints at the end is kept as the values it prints. *)

Definition then_ask {A B : Type}
  (a : asked A) (k : A -> list byte -> asked B) : asked B :=
  match a with
  | Answer x rest => k x rest
  | AskError => AskError
  | AskPanic => AskPanic
  end.

(** The four numbers [main] reads: the length by its loop, then the counts
    of uppercase letters, digits and specials.  The loop is given one turn
    more than there are bytes to read. *)
Definition main_parameters (stdin : list byte) : option (asked (Z * Z * Z * Z)) :=
  match main_length (S (List.length stdin)) stdin with
  | None => None
  | Some a =>
      Some
        (then_ask a (fun pwLen rest =>
         then_ask (askUint32 rest) (fun uppercaseCount rest =>
         then_ask (askUint32 rest) (fun digitCount rest =>
         then_ask (askUint32 rest) (fun specialCount rest =>
         Answer (pwLen, uppercaseCount, digitCount, specialCount) rest)))))
  end.

Record report : Type := mkReport {
  password : list byte;
  minBits : Z;
  avgBits : float;
  maxBits : Z;
  rating : string
}.

(** How [main] ends: [os.Exit(1)] after an error, a panic, or the report
    printed, with the memory as the clean-up leaves it. *)
Inductive ended : Type :=
| Exit1
| Crashed
| Printed (r : report) (memory : state).

(** [for i := 0; i < len(b); i++ { b[i] = 0 }], [n] bytes left from [i]. *)
Fixpoint zero_loop (n : nat) (i : Z) : M unit :=
  match n with
  | O => ret tt
  | S n' => store i x00 ;;; zero_loop n' (i + 1)
  end.

(** The clean-up of [main]: the loop of zeros, then [_, _ = rand.Read(b)],
    whose error is dropped. *)
Definition cleanUp (reader : Z -> option Z) : M unit :=
  fun s =>
    match zero_loop (List.length s.(buf)) 0 s with
    | (Ok _, s1) =>
        match rand_Read reader (len s1.(buf)) s1 with
        | (Ok bytes, s2) =>
            (Ok tt, mkState s2.(cursor) bytes (bytes :: s2.(hist)))
        | (_, s2) => (Ok tt, s2)
        end
    | (Err e, s1) => (Err e, s1)
    | (Panic, s1) => (Panic, s1)
    end.

Definition main (reader : Z -> option Z) (stdin : list byte) : option ended :=
  match main_parameters stdin with
  | None => None
  | Some AskError => Some Exit1
  | Some AskPanic => Some Crashed
  | Some (Answer (pwLen, uppercaseCount, digitCount, specialCount) _) =>
      Some
        match NewGenerator pwLen uppercaseCount digitCount specialCount with
        | Ok g =>
            match Generate reader g initial with
            | (Ok b, s) =>
                let entropyMax := EntropyMax g in
                match EntropyMin g with
                | Ok entropyMin =>
                    let avg := entropyAvg (EntropyMax g) entropyMin in
                    Printed
                      (mkReport b entropyMin avg entropyMax (getRatingString avg))
                      (snd (cleanUp reader s))
                | Err _ => Exit1
                | Panic => Crashed
                end
            | (Err _, _) => Exit1
            | (Panic, _) => Crashed
            end
        | Err _ => Exit1
        | Panic => Crashed
        end
  end.

(** The input of a run that asks for length 0, keeps it, and gives counts
    that add up to [2^32]. *)
Definition crashing_input : list byte :=
  list_byte_of_string "0" ++ x0a :: list_byte_of_string "n" ++ x0a ::
  list_byte_of_string "4294967295" ++ x0a :: list_byte_of_string "1" ++ x0a ::
  list_byte_of_string "0" ++ [x0a].

(** The input of the worked example of the README. *)
Definition readme_input : list byte :=
  list_byte_of_string "14" ++ x0a :: list_byte_of_string "2" ++ x0a ::
  list_byte_of_string "1" ++ x0a :: list_byte_of_string "1" ++ [x0a].


(** Whether a length is one [main] warns about. *)
Definition common_length (pwLen : Z) : bool :=
  (pwLen mod 10 =? 0) || isPowerOfTwo pwLen.

(** * Properties *)

(** ** [Sum512] on the standard test vectors *)

Example Sum512_empty :
  hex_of_bytes (SHA512.Sum512 []) =
  "cf83e1357eefb8bdf1542850d66d8007d620e4050b5715dc83f4a921d36ce9ce47d0d13c5d85f2b0ff8318d2877eec2f63b931bd47417a81a538327af927da3e"%string.
Proof. vm_compute. reflexivity. Qed.

Example Sum512_abc :
  hex_of_bytes (SHA512.Sum512 [x61; x62; x63]) =
  "ddaf35a193617abacc417349ae20413112e6fa4e89a97ea20a9eeee64b55d39a2192992a274fc1a836ba3c23a3feebbd454d4423643ce80e2a9ac94fa54ca49f"%string.
Proof. vm_compute. reflexivity. Qed.

Example Sum512_two_blocks :
  hex_of_bytes (SHA512.Sum512 (map byte_of_Z (map Z.of_nat (seq 0 200)))) =
  "986058e9895e2c2ab8f9e8cbdf801db12a44842a56a91d5a4e87b1fc98b293722c4664142e42c3c551ff898646268cd92b84ed230b8c94bed7798d4f27cd7465"%string.
Proof. vm_compute. reflexivity. Qed.

(** ** Bit lengths *)

Lemma BitLen_log2 (x : Z) : 0 < x -> BitLen x = Z.log2 x + 1.
Proof.
  destruct x as [|p|p]; try lia.
  intros _. destruct p; simpl; lia.
Qed.

Lemma BitLen_nonneg (x : Z) : 0 <= BitLen x.
Proof. destruct x; simpl; lia. Qed.

Lemma BitLen_spec (x : Z) : 0 <= x -> bit_length_of x (BitLen x).
Proof.
  intros Hx. unfold bit_length_of.
  destruct (Z.eq_dec x 0) as [->|Hne]; [left; split; reflexivity|].
  right. assert (Hpos : 0 < x) by lia.
  rewrite (BitLen_log2 x Hpos).
  pose proof (Z.log2_nonneg x) as Hl.
  pose proof (Z.log2_spec x Hpos) as Hs.
  replace (Z.log2 x + 1 - 1) with (Z.log2 x) by lia.
  unfold Z.succ in Hs. lia.
Qed.

Lemma BitLen_mono (x y : Z) : 0 <= x <= y -> BitLen x <= BitLen y.
Proof.
  intros [Hx Hxy].
  destruct (Z.eq_dec x 0) as [->|Hne].
  - simpl. apply BitLen_nonneg.
  - rewrite !BitLen_log2 by lia.
    pose proof (Z.log2_le_mono x y Hxy). lia.
Qed.

Lemma BitLen_bound (x k : Z) : 0 <= k -> 0 <= x < 2 ^ k -> BitLen x <= k.
Proof.
  intros Hk [Hx Hlt].
  destruct (Z.eq_dec x 0) as [->|Hne]; [simpl; lia|].
  rewrite BitLen_log2 by lia.
  assert (Z.log2 x < k) by (apply Z.log2_lt_pow2; lia).
  lia.
Qed.

Lemma wrap64_small (x : Z) : 0 <= x < 2 ^ 64 -> wrap64 x = x.
Proof. intros H. unfold wrap64. apply Z.mod_small. exact H. Qed.

Lemma wrap32_small (x : Z) : 0 <= x < 2 ^ 32 -> wrap32 x = x.
Proof. intros H. unfold wrap32. apply Z.mod_small. exact H. Qed.

Lemma Exp0_pow (x y : Z) : 0 <= y -> Exp0 x y = x ^ y.
Proof.
  intros Hy. unfold Exp0. destruct (Z.leb_spec y 0) as [H|H]; [|reflexivity].
  replace y with 0 by lia. reflexivity.
Qed.

Lemma len_letterCharset : len letterCharset = 24.
Proof. reflexivity. Qed.

Lemma len_digitCharset : len digitCharset = 10.
Proof. reflexivity. Qed.

Lemma len_specialCharset : len specialCharset = 18.
Proof. reflexivity. Qed.

Lemma pool_range (g : Generator) : 25 <= pool g <= 77.
Proof.
  unfold pool.
  destruct (0 <? uppercaseCount g), (0 <? digitCount g), (0 <? specialCount g); lia.
Qed.

(** A power of a base below [2^b] stays below [2^(b*n)]. *)
Lemma pow_below (x b n : Z) :
  0 < x < 2 ^ b -> 0 <= b -> 0 <= n -> 0 < x ^ n <= 2 ^ (b * n).
Proof.
  intros Hx Hb Hn. split.
  - apply Z.pow_pos_nonneg; lia.
  - rewrite Z.pow_mul_r by lia.
    apply Z.pow_le_mono_l. lia.
Qed.

(** What [EntropyMax] computes, its wrap-arounds resolved. *)
Lemma EntropyMax_formula (g : Generator) :
  is_uint32 g.(length) -> 0 <= g.(uppercaseCount) -> 0 <= g.(digitCount) ->
  0 <= g.(specialCount) ->
  EntropyMax g = BitLen (pool g ^ g.(length) - 1).
Proof.
  unfold is_uint32. intros Hl Hu Hd Hs.
  pose proof (pool_range g) as Hp.
  assert (Hpow : 0 < pool g ^ length g <= 2 ^ (7 * length g)).
  { apply pow_below; lia. }
  assert (Hb : BitLen (pool g ^ length g - 1) <= 7 * length g).
  { apply BitLen_bound; lia. }
  pose proof (BitLen_nonneg (pool g ^ length g - 1)) as Hn.
  unfold EntropyMax.
  rewrite len_letterCharset, len_digitCharset, len_specialCharset.
  assert (Hc : (let possibleChars := wrap64 (1 + 24) in
                let possibleChars0 :=
                  if uppercaseCount g =? 0 then possibleChars
                  else wrap64 (possibleChars + 24) in
                let possibleChars1 :=
                  if digitCount g =? 0 then possibleChars0
                  else wrap64 (possibleChars0 + 10) in
                if specialCount g =? 0 then possibleChars1
                else wrap64 (possibleChars1 + 18)) = pool g).
  { unfold pool. cbv zeta.
    destruct (Z.eqb_spec (uppercaseCount g) 0) as [E1|E1];
    destruct (Z.eqb_spec (digitCount g) 0) as [E2|E2];
    destruct (Z.eqb_spec (specialCount g) 0) as [E3|E3];
    destruct (Z.ltb_spec 0 (uppercaseCount g));
    destruct (Z.ltb_spec 0 (digitCount g));
    destruct (Z.ltb_spec 0 (specialCount g)); try lia; reflexivity. }
  cbv zeta in Hc |- *. rewrite Hc.
  rewrite Exp0_pow by lia.
  apply wrap64_small. change (2 ^ 64) with 18446744073709551616.
  change (2 ^ 32) with 4294967296 in Hl. lia.
Qed.

Lemma minCombinations_range (g : Generator) :
  0 <= g.(uppercaseCount) -> 0 <= g.(digitCount) -> 0 <= g.(specialCount) ->
  g.(uppercaseCount) + g.(digitCount) + g.(specialCount) <= g.(length) ->
  0 <= minCombinations g < 2 ^ (5 * g.(length)).
Proof.
  intros Hu Hd Hs Hsum. unfold minCombinations. cbv zeta.
  set (bc := length g - (uppercaseCount g + digitCount g + specialCount g)).
  assert (Hbc : 0 <= bc) by (unfold bc; lia).
  assert (H1 : 0 < (1 + 24) ^ bc <= 2 ^ (5 * bc))
    by (apply pow_below; lia).
  assert (H2 : 0 < (1 + 24) ^ uppercaseCount g <= 2 ^ (5 * uppercaseCount g))
    by (apply pow_below; lia).
  assert (H3 : 0 < (1 + 10) ^ digitCount g <= 2 ^ (5 * digitCount g))
    by (apply pow_below; lia).
  assert (H4 : 0 < (1 + 18) ^ specialCount g <= 2 ^ (5 * specialCount g))
    by (apply pow_below; lia).
  replace (5 * length g)
    with (5 * bc + 5 * uppercaseCount g + 5 * digitCount g + 5 * specialCount g)
    by (unfold bc; lia).
  rewrite !Z.pow_add_r by lia.
  assert (0 < 2 ^ (5 * bc)) by lia.
  assert (0 < 2 ^ (5 * uppercaseCount g)) by lia.
  assert (0 < 2 ^ (5 * digitCount g)) by lia.
  assert (0 < 2 ^ (5 * specialCount g)) by lia.
  split; [nia|].
  assert ((1 + 24) ^ bc * (1 + 24) ^ uppercaseCount g
          <= 2 ^ (5 * bc) * 2 ^ (5 * uppercaseCount g)) by nia.
  assert ((1 + 24) ^ bc * (1 + 24) ^ uppercaseCount g * (1 + 10) ^ digitCount g
          <= 2 ^ (5 * bc) * 2 ^ (5 * uppercaseCount g) * 2 ^ (5 * digitCount g))
    by (apply Z.mul_le_mono_nonneg; nia).
  assert ((1 + 24) ^ bc * (1 + 24) ^ uppercaseCount g * (1 + 10) ^ digitCount g
            * (1 + 18) ^ specialCount g
          <= 2 ^ (5 * bc) * 2 ^ (5 * uppercaseCount g) * 2 ^ (5 * digitCount g)
             * 2 ^ (5 * specialCount g))
    by (apply Z.mul_le_mono_nonneg; nia).
  lia.
Qed.

(** What [EntropyMin] computes when the counts fit the length. *)
Lemma EntropyMin_formula (g : Generator) :
  is_uint32 g.(length) -> 0 <= g.(uppercaseCount) -> 0 <= g.(digitCount) ->
  0 <= g.(specialCount) ->
  g.(uppercaseCount) + g.(digitCount) + g.(specialCount) <= g.(length) ->
  EntropyMin g = Ok (BitLen (minCombinations g)).
Proof.
  unfold is_uint32. intros Hl Hu Hd Hs Hsum.
  pose proof (minCombinations_range g Hu Hd Hs Hsum) as Hr.
  assert (Hb : BitLen (minCombinations g) <= 5 * length g)
    by (apply BitLen_bound; lia).
  pose proof (BitLen_nonneg (minCombinations g)) as Hn.
  change (2 ^ 32) with 4294967296 in Hl.
  unfold EntropyMin. cbv zeta.
  rewrite (wrap32_small (uppercaseCount g + digitCount g))
    by (change (2 ^ 32) with 4294967296; lia).
  rewrite (wrap32_small (uppercaseCount g + digitCount g + specialCount g))
    by (change (2 ^ 32) with 4294967296; lia).
  destruct (Z.ltb_spec (length g)
              (uppercaseCount g + digitCount g + specialCount g)) as [Hlt|_];
    [lia|].
  rewrite wrap32_small by (change (2 ^ 32) with 4294967296; lia).
  unfold addPossibleCombinationsFn. cbv zeta.
  rewrite len_letterCharset, len_digitCharset, len_specialCharset.
  rewrite (wrap64_small (1 + 24)), (wrap64_small (1 + 10)),
    (wrap64_small (1 + 18)) by lia.
  rewrite !Exp0_pow by lia.
  rewrite Z.mul_1_l. fold (minCombinations g).
  rewrite wrap64_small
    by (change (2 ^ 64) with 18446744073709551616; lia).
  reflexivity.
Qed.

(** ** The constructor *)

Lemma wrap32_sum (u d s : Z) : wrap32 (wrap32 (u + d) + s) = wrap32 (u + d + s).
Proof. unfold wrap32. rewrite Zplus_mod_idemp_l. reflexivity. Qed.

(** [NewGenerator] rejects exactly on a length above 128 or on a wrapped
    sum of the counts above the length. *)
Lemma NewGenerator_rejects (l u d s : Z) :
  NewGenerator l u d s = Err ValidationError <->
  128 < l \/ l < wrap32 (u + d + s).
Proof.
  unfold NewGenerator. cbv zeta. simpl. rewrite wrap32_sum.
  destruct (Z.ltb_spec 128 l) as [H1|H1];
    destruct (Z.ltb_spec l (wrap32 (u + d + s))) as [H2|H2];
    split; intros H; try discriminate; try reflexivity; try lia; auto.
Qed.

Lemma NewGenerator_accepts (l u d s : Z) (g : Generator) :
  NewGenerator l u d s = Ok g ->
  g = mkGenerator l u d s /\ l <= 128 /\ wrap32 (u + d + s) <= l.
Proof.
  unfold NewGenerator. cbv zeta. simpl. rewrite wrap32_sum.
  destruct (Z.ltb_spec 128 l) as [H1|H1]; [discriminate|].
  destruct (Z.ltb_spec l (wrap32 (u + d + s))) as [H2|H2]; [discriminate|].
  intros H. inversion H. repeat split; lia.
Qed.

(** C2: [NewGenerator] adds the three counts in [uint32], so counts whose
    sum passes [2^32] are accepted although the sum exceeds the length:
    here the sum is [2^32] and the length 1. *)
Theorem NewGenerator_accepts_wrapped_sum :
  NewGenerator 1 4294967295 1 0 = Ok (mkGenerator 1 4294967295 1 0) /\
  is_uint32 4294967295 /\ 1 < 4294967295 + 1 + 0.
Proof.
  split; [vm_compute; reflexivity|]. unfold is_uint32. lia.
Qed.

(** C9: on a generator that [NewGenerator] returned, [EntropyMin] does not
    take its error branch: it tests the sum that [NewGenerator] tested. *)
Theorem EntropyMin_error_unreachable (l u d s : Z) (g : Generator) :
  NewGenerator l u d s = Ok g -> exists n, EntropyMin g = Ok n.
Proof.
  intros H. apply NewGenerator_accepts in H. destruct H as (-> & _ & Hs).
  unfold EntropyMin. cbv zeta. simpl. rewrite wrap32_sum.
  destruct (Z.ltb_spec l (wrap32 (u + d + s))) as [H2|H2]; [lia|].
  eexists. reflexivity.
Qed.

Lemma EntropyMin_error_unreachable_witness :
  NewGenerator 14 2 1 1 = Ok readme_example /\
  exists n, EntropyMin readme_example = Ok n.
Proof.
  split; [reflexivity|].
  apply (EntropyMin_error_unreachable 14 2 1 1 readme_example). reflexivity.
Defined.

(** ** The entropy bounds *)

Lemma valid_readme_example : valid readme_example.
Proof. unfold valid, is_uint32. simpl. lia. Qed.

(** C3: on a valid configuration [EntropyMax] is the length in bits of
    [pool ^ length - 1], the pool being 1 + 24, plus 24 when uppercase
    letters are asked for, 10 when digits are, 18 when specials are. *)
Theorem EntropyMax_bit_length (g : Generator) :
  valid g ->
  EntropyMax g = BitLen (pool g ^ g.(length) - 1) /\
  bit_length_of (pool g ^ g.(length) - 1) (EntropyMax g).
Proof.
  unfold valid, is_uint32. intros (Hl & Hu & Hd & Hs & _ & _).
  assert (E : EntropyMax g = BitLen (pool g ^ length g - 1))
    by (apply EntropyMax_formula; unfold is_uint32; lia).
  split; [exact E|]. rewrite E. apply BitLen_spec.
  pose proof (pool_range g).
  assert (0 < pool g ^ length g) by (apply Z.pow_pos_nonneg; lia). lia.
Qed.

Lemma EntropyMax_bit_length_witness :
  valid readme_example /\
  EntropyMax readme_example = BitLen (pool readme_example ^ 14 - 1) /\
  bit_length_of (pool readme_example ^ 14 - 1) (EntropyMax readme_example).
Proof.
  split; [exact valid_readme_example|].
  apply (EntropyMax_bit_length readme_example). exact valid_readme_example.
Defined.

(** C4: when the counts fit the length, [EntropyMin] returns without error
    the length in bits of
    [25^baseCount * 25^uppercaseCount * 11^digitCount * 19^specialCount - 1]. *)
Theorem EntropyMin_bit_length (g : Generator) :
  is_uint32 g.(length) -> is_uint32 g.(uppercaseCount) ->
  is_uint32 g.(digitCount) -> is_uint32 g.(specialCount) ->
  g.(uppercaseCount) + g.(digitCount) + g.(specialCount) <= g.(length) ->
  exists n, EntropyMin g = Ok n /\ n = BitLen (minCombinations g) /\
            bit_length_of (minCombinations g) n.
Proof.
  unfold is_uint32. intros Hl Hu Hd Hs Hsum.
  exists (BitLen (minCombinations g)). split; [|split; [reflexivity|]].
  - apply EntropyMin_formula; unfold is_uint32; lia.
  - apply BitLen_spec. apply minCombinations_range; lia.
Qed.

Lemma EntropyMin_bit_length_witness :
  (is_uint32 14 /\ is_uint32 2 /\ is_uint32 1 /\ 2 + 1 + 1 <= 14) /\
  exists n, EntropyMin readme_example = Ok n /\
            n = BitLen (minCombinations readme_example) /\
            bit_length_of (minCombinations readme_example) n.
Proof.
  split; [unfold is_uint32; lia|].
  apply (EntropyMin_bit_length readme_example);
    unfold is_uint32; simpl; lia.
Defined.

(** C5: the worked example of the README: 88 bits at most, 64 at least,
    76 on average, rated Good. *)
Theorem readme_example_report :
  EntropyMax readme_example = 88 /\
  EntropyMin readme_example = Ok 64 /\
  entropyAvg 88 64 = 76%float /\
  getRatingString (entropyAvg 88 64) = "Good"%string.
Proof. repeat split; vm_compute; reflexivity. Qed.

(** C6: on a valid configuration [EntropyMax] is at least [EntropyMin]. *)
Theorem EntropyMax_ge_EntropyMin (g : Generator) :
  valid g -> exists m, EntropyMin g = Ok m /\ m <= EntropyMax g.
Proof.
  unfold valid, is_uint32. intros (Hl & Hu & Hd & Hs & _ & Hsum).
  exists (BitLen (minCombinations g)). split.
  - apply EntropyMin_formula; unfold is_uint32; lia.
  - rewrite EntropyMax_formula by (unfold is_uint32; lia).
    apply BitLen_mono.
    pose proof (minCombinations_range g) as Hr.
    split; [apply Hr; lia|].
    pose proof (pool_range g) as Hp.
    unfold minCombinations. cbv zeta.
    set (bc := length g - (uppercaseCount g + digitCount g + specialCount g)).
    assert (Hbc : 0 <= bc) by (unfold bc; lia).
    assert (H1 : 0 < (1 + 24) ^ bc <= pool g ^ bc)
      by (split; [apply Z.pow_pos_nonneg|apply Z.pow_le_mono_l]; lia).
    assert (H2 : 0 < (1 + 24) ^ uppercaseCount g <= pool g ^ uppercaseCount g)
      by (split; [apply Z.pow_pos_nonneg|apply Z.pow_le_mono_l]; lia).
    assert (H3 : 0 < (1 + 10) ^ digitCount g <= pool g ^ digitCount g)
      by (split; [apply Z.pow_pos_nonneg|apply Z.pow_le_mono_l]; lia).
    assert (H4 : 0 < (1 + 18) ^ specialCount g <= pool g ^ specialCount g)
      by (split; [apply Z.pow_pos_nonneg|apply Z.pow_le_mono_l]; lia).
    replace (length g)
      with (bc + uppercaseCount g + digitCount g + specialCount g)
      by (unfold bc; lia).
    rewrite !Z.pow_add_r by lia.
    assert ((1 + 24) ^ bc * (1 + 24) ^ uppercaseCount g
            <= pool g ^ bc * pool g ^ uppercaseCount g) by nia.
    assert ((1 + 24) ^ bc * (1 + 24) ^ uppercaseCount g * (1 + 10) ^ digitCount g
            <= pool g ^ bc * pool g ^ uppercaseCount g * pool g ^ digitCount g)
      by (apply Z.mul_le_mono_nonneg; nia).
    assert ((1 + 24) ^ bc * (1 + 24) ^ uppercaseCount g * (1 + 10) ^ digitCount g
              * (1 + 18) ^ specialCount g
            <= pool g ^ bc * pool g ^ uppercaseCount g * pool g ^ digitCount g
               * pool g ^ specialCount g)
      by (apply Z.mul_le_mono_nonneg; nia).
    lia.
Qed.

Lemma EntropyMax_ge_EntropyMin_witness :
  valid readme_example /\
  exists m, EntropyMin readme_example = Ok m /\ m <= EntropyMax readme_example.
Proof.
  split; [exact valid_readme_example|].
  apply (EntropyMax_ge_EntropyMin readme_example). exact valid_readme_example.
Defined.

(** ** The character draw *)

(** C8: [charsetAt] reduces a byte modulo the length of the charset, and
    256 is a multiple of none of 24, 10 and 18: the first members of each
    charset are reached from one byte value more than the last ones. *)
Theorem charsetAt_modulo_bias :
  preimages letterCharset "a" = 11 /\ preimages letterCharset "z" = 10 /\
  preimages digitCharset "0" = 26 /\ preimages digitCharset "9" = 25 /\
  preimages specialCharset "~" = 15 /\ preimages specialCharset "." = 14.
Proof. repeat split; vm_compute; reflexivity. Qed.

(** ** Lists and bytes *)

Lemma update_length (l : list byte) (i : nat) (x : byte) :
  List.length (update l i x) = List.length l.
Proof.
  revert i. induction l as [|y l IH]; intros [|i]; simpl; auto.
Qed.

Lemma nth_error_update_eq (l : list byte) (i : nat) (x : byte) :
  (i < List.length l)%nat -> nth_error (update l i x) i = Some x.
Proof.
  revert i. induction l as [|y l IH]; intros [|i]; simpl; intros H;
    try lia; auto.
  apply IH. lia.
Qed.

Lemma nth_error_update_neq (l : list byte) (i p : nat) (x : byte) :
  p <> i -> nth_error (update l i x) p = nth_error l p.
Proof.
  revert i p. induction l as [|y l IH]; intros [|i] [|p]; simpl; intros H;
    try reflexivity; try congruence.
  apply IH. congruence.
Qed.

Lemma count_cons (p : byte -> bool) (x : byte) (l : list byte) :
  count p (x :: l) = Z.b2z (p x) + count p l.
Proof.
  unfold count. simpl. destruct (p x); simpl List.length; simpl Z.b2z; lia.
Qed.

Lemma count_update (p : byte -> bool) (l : list byte) (i : nat) (c x : byte) :
  nth_error l i = Some c ->
  count p (update l i x) = count p l - Z.b2z (p c) + Z.b2z (p x).
Proof.
  revert i. induction l as [|y l IH]; intros [|i]; simpl; intros H;
    try discriminate.
  - inversion H; subst. rewrite !count_cons. lia.
  - rewrite !count_cons. rewrite (IH i H). lia.
Qed.

Lemma count_all (p : byte -> bool) (l : list byte) :
  Forall (fun c => p c = true) l -> count p l = len l.
Proof.
  induction 1 as [|x l Hx _ IH]; [reflexivity|].
  rewrite count_cons, IH, Hx. unfold len. simpl List.length. simpl Z.b2z. lia.
Qed.

Lemma count_none (p : byte -> bool) (l : list byte) :
  Forall (fun c => p c = false) l -> count p l = 0.
Proof.
  induction 1 as [|x l Hx _ IH]; [reflexivity|].
  rewrite count_cons, IH, Hx. reflexivity.
Qed.

Lemma Forall_update (P : byte -> Prop) (l : list byte) (i : nat) (x : byte) :
  Forall P l -> P x -> Forall P (update l i x).
Proof.
  intros Hl Hx. revert i.
  induction Hl as [|y l Hy Hl IH]; intros [|i]; simpl; constructor; auto.
Qed.

Lemma mem_In (b : byte) (l : list byte) : mem b l = true <-> In b l.
Proof.
  unfold mem. rewrite existsb_exists. split.
  - intros (x & Hx & E). apply Byte.byte_dec_bl in E. subst. exact Hx.
  - intros H. exists b. split; [exact H|]. apply Byte.byte_dec_lb. reflexivity.
Qed.

(** The test of the inner loop holds of the base letters and of nothing else. *)
Lemma Contains_letterCharset (c : byte) :
  strings_Contains letterCharset (string_of_byte c) = in_class Lowercase c.
Proof. destruct c; reflexivity. Qed.

(** The four classes share no byte. *)
Lemma in_class_classes_of (b : byte) (k : charClass) :
  in_class k b = true -> classes_of b = [k].
Proof.
  destruct b, k; vm_compute; intros H; (discriminate H || reflexivity).
Qed.

Lemma in_class_one_class (b : byte) (k : charClass) :
  in_class k b = true -> one_class b.
Proof.
  intros H. unfold one_class. rewrite (in_class_classes_of b k H). reflexivity.
Qed.

Lemma in_class_unique (b : byte) (j k : charClass) :
  in_class k b = true -> in_class j b = charClass_eqb j k.
Proof.
  intros Hk. destruct (in_class j b) eqn:Hj.
  - pose proof (in_class_classes_of b k Hk) as E1.
    pose proof (in_class_classes_of b j Hj) as E2.
    rewrite E1 in E2. inversion E2. destruct j; reflexivity.
  - destruct j, k; try reflexivity; congruence.
Qed.

Lemma toUpperByte_class (c : byte) :
  in_class Lowercase c = true -> in_class Uppercase (toUpperByte c) = true.
Proof. destruct c; vm_compute; intros H; (discriminate H || reflexivity). Qed.

(** No class holds an ambiguous letter. *)
Lemma in_class_not_ambiguous (b : byte) (k : charClass) :
  in_class k b = true -> ambiguous b = false.
Proof.
  destruct b, k; vm_compute; intros H; (discriminate H || reflexivity).
Qed.

Lemma clean_repeat (n : nat) : clean (repeat x00 n).
Proof.
  unfold clean. apply Forall_forall. intros c Hc.
  apply repeat_spec in Hc. subst. reflexivity.
Qed.

(** ** Drawing from the entropy source *)

Lemma frame_refl (s : state) : frame s s.
Proof. split; reflexivity. Qed.

Lemma frame_trans (s1 s2 s3 : state) : frame s1 s2 -> frame s2 s3 -> frame s1 s3.
Proof. unfold frame. intros [-> ->] [-> ->]. split; reflexivity. Qed.

Lemma draws_ret {A : Type} (a : A) (Q : A -> Prop) : Q a -> draws (ret a) Q.
Proof. intros H s. simpl. split; [exact H|apply frame_refl]. Qed.

Lemma draws_bind {A B : Type} (m : M A) (k : A -> M B)
  (Q1 : A -> Prop) (Q : B -> Prop) :
  draws m Q1 -> (forall a, Q1 a -> draws (k a) Q) -> draws (bind m k) Q.
Proof.
  intros Hm Hk s. unfold bind. specialize (Hm s).
  destruct (m s) as [[a|e|] s1].
  - destruct Hm as [Ha Hf]. specialize (Hk a Ha s1).
    destruct (k a s1) as [[b|e|] s2].
    + destruct Hk as [Hb Hf2]. split; [exact Hb|eapply frame_trans; eauto].
    + destruct Hk as [He Hf2]. split; [exact He|eapply frame_trans; eauto].
    + eapply frame_trans; eauto.
  - exact Hm.
  - exact Hm.
Qed.

Lemma draws_weaken {A : Type} (m : M A) (Q1 Q2 : A -> Prop) :
  draws m Q1 -> (forall a, Q1 a -> Q2 a) -> draws m Q2.
Proof.
  intros Hm HQ s. specialize (Hm s). destruct (m s) as [[a|e|] s1]; auto.
  destruct Hm as [Ha Hf]. split; auto.
Qed.

Lemma draws_charsetAt (charset : list byte) (b : byte) :
  draws (lift (charsetAt charset b)) (fun c => In c charset).
Proof.
  intros s. unfold lift, charsetAt.
  destruct (wrap8 (len charset) =? 0); [apply frame_refl|].
  destruct (nth_error charset (Z.to_nat (Z_of_byte b mod wrap8 (len charset))))
    as [c|] eqn:E; [|apply frame_refl].
  split; [eapply nth_error_In; eauto|apply frame_refl].
Qed.

Section GenerationFacts.

Variable reader : Z -> option Z.
Variable g : Generator.

Lemma frame_advance (s : state) : frame s (advance s).
Proof. split; reflexivity. Qed.

Lemma draws_rand_Int (max : Z) :
  draws (rand_Int reader max) (fun v => 0 <= v < max).
Proof.
  intros s. unfold rand_Int.
  destruct (Z.leb_spec max 0) as [H|H]; [apply frame_refl|].
  destruct (reader (cursor s)) as [v|].
  - split; [apply Z.mod_pos_bound; lia|apply frame_advance].
  - split; [reflexivity|apply frame_advance].
Qed.

Lemma draws_rand_Read (n : Z) :
  draws (rand_Read reader n) (fun b => List.length b = Z.to_nat n).
Proof.
  intros s. unfold rand_Read.
  destruct (reader (cursor s)) as [v|].
  - split; [|apply frame_advance].
    generalize (Z.to_nat n) as k. intros k. revert v.
    induction k as [|k IH]; intros v; simpl; [reflexivity|].
    rewrite IH. reflexivity.
  - split; [reflexivity|apply frame_advance].
Qed.

Lemma draws_secureRandomByte : draws (secureRandomByte reader) (fun _ => True).
Proof.
  unfold secureRandomByte.
  eapply draws_bind; [apply draws_rand_Int|]. intros bufLen _.
  eapply draws_bind; [apply draws_rand_Read|]. intros b _.
  apply draws_ret. exact I.
Qed.

Lemma draws_secureRandomChar (charset : list byte) :
  draws (secureRandomChar reader charset) (fun c => In c charset).
Proof.
  unfold secureRandomChar.
  eapply draws_bind; [apply draws_secureRandomByte|]. intros b _.
  apply draws_charsetAt.
Qed.

Lemma draws_class (k : charClass) :
  draws (secureRandomChar reader (members k)) (fun c => in_class k c = true).
Proof.
  eapply draws_weaken; [apply draws_secureRandomChar|].
  intros c Hc. unfold in_class. apply mem_In. exact Hc.
Qed.

Lemma draws_toUpper (c : byte) :
  in_class Lowercase c = true ->
  draws (ret (byte_of_Z (ToUpper (Z_of_byte c))))
        (fun c' => in_class Uppercase c' = true).
Proof. intros H. apply draws_ret. apply (toUpperByte_class c H). Qed.

(** ** One substitution *)

Lemma seek_attempts_spec (applyFn : byte -> M byte) (Q : byte -> Prop) :
  (forall c, in_class Lowercase c = true -> draws (applyFn c) Q) ->
  forall (fuel : nat) (s : state),
    match seek_attempts reader g applyFn fuel s with
    | (Ok true, s') =>
        exists i c c',
          nth_error s.(buf) i = Some c /\ in_class Lowercase c = true /\
          Q c' /\ s'.(buf) = update s.(buf) i c' /\
          s'.(hist) = s'.(buf) :: s.(hist)
    | (Ok false, s') =>
        frame s s' /\ s'.(cursor) = s.(cursor) + Z.of_nat fuel /\
        forall j, 0 <= j < Z.of_nat fuel ->
          exists v, reader (s.(cursor) + j) = Some v /\
            in_class Lowercase
              (nth (Z.to_nat (v mod g.(length))) s.(buf) x00) = false
    | (Err e, s') => e = EntropySourceError /\ frame s s'
    | (Panic, s') => frame s s'
    end.
Proof.
  intros Happly. induction fuel as [|fuel IH]; intros s.
  - simpl. split; [apply frame_refl|]. split; [lia|]. intros j Hj. lia.
  - cbn [seek_attempts]. unfold bind at 1. unfold rand_Int.
    destruct (Z.leb_spec (length g) 0) as [Hlen|Hlen]; [apply frame_refl|].
    destruct (reader (cursor s)) as [v|] eqn:Ev;
      [|split; [reflexivity|apply frame_advance]].
    unfold bind at 1. unfold load. cbn [buf advance cursor hist].
    destruct ((0 <=? v mod length g) && (v mod length g <? len (buf s)))
      eqn:Hin; [|apply frame_advance].
    destruct (nth_error (buf s) (Z.to_nat (v mod length g))) as [c|] eqn:Ec;
      [|apply frame_advance].
    rewrite Contains_letterCharset.
    destruct (in_class Lowercase c) eqn:Hc; cbn [negb].
    + (* a base letter: substitute *)
      unfold bind at 1. pose proof (Happly c Hc (advance s)) as Ha.
      destruct (applyFn c (advance s)) as [[c'|e|] s1].
      * destruct Ha as [HQ [Hb Hh]]. cbn [buf advance hist] in Hb, Hh.
        unfold bind, store, ret. rewrite Hb, Hin. cbn [buf hist].
        exists (Z.to_nat (v mod length g)), c, c'.
        rewrite Hh. repeat split; auto.
      * destruct Ha as [He Hf]. split; [exact He|].
        eapply frame_trans; [apply frame_advance|exact Hf].
      * eapply frame_trans; [apply frame_advance|exact Ha].
    + (* no base letter: draw again *)
      specialize (IH (advance s)).
      destruct (seek_attempts reader g applyFn fuel (advance s))
        as [[[|]|e|] s1].
      * destruct IH as (i & d & d' & H1 & H2 & H3 & H4 & H5).
        exists i, d, d'. cbn [buf advance hist] in *. auto.
      * destruct IH as (Hf & Hcur & Hmiss). cbn [advance cursor buf] in *.
        split; [eapply frame_trans; [apply frame_advance|exact Hf]|].
        split; [lia|]. intros j Hj.
        destruct (Z.eq_dec j 0) as [->|Hj0].
        -- exists v. rewrite Z.add_0_r. split; [exact Ev|].
           rewrite (nth_error_nth _ _ x00 Ec). exact Hc.
        -- destruct (Hmiss (j - 1)) as (w & Hw & Hm); [lia|].
           exists w. split; [|exact Hm].
           replace (cursor s + j) with (cursor s + 1 + (j - 1)) by lia.
           exact Hw.
      * destruct IH as [He Hf]. split; [exact He|].
        eapply frame_trans; [apply frame_advance|exact Hf].
      * eapply frame_trans; [apply frame_advance|exact IH].
Qed.

End GenerationFacts.

(** ** A pass of substitutions *)

Lemma maxAttempts_nat : Z.of_nat (Z.to_nat maxAttempts) = maxAttempts.
Proof. apply Z2Nat.id. unfold maxAttempts. lia. Qed.

Lemma substituted_refl (k : charClass) (b : list byte) : substituted k 0 b b.
Proof. repeat split; auto. intros j. lia. Qed.

Lemma substituted_step (k : charClass) (n : Z) (b b' : list byte)
  (i : nat) (c c' : byte) :
  nth_error b i = Some c -> in_class Lowercase c = true ->
  in_class k c' = true ->
  substituted k n (update b i c') b' -> substituted k (n + 1) b b'.
Proof.
  intros Hi Hc Hc' (Hlen & Hcount & Hone). split; [|split].
  - rewrite Hlen. apply update_length.
  - intros j. rewrite Hcount, (count_update _ _ _ _ _ Hi).
    rewrite (in_class_unique c j Lowercase Hc), (in_class_unique c' j k Hc').
    unfold delta. lia.
  - intros H. apply Hone. apply Forall_update; [exact H|].
    apply (in_class_one_class c' k Hc').
Qed.

Section Pass.

Variable reader : Z -> option Z.
Variable g : Generator.
Variable k : charClass.
Hypothesis Hk : k <> Lowercase.
Variable applyFn : byte -> M byte.
Hypothesis Happly :
  forall c, in_class Lowercase c = true ->
            draws (applyFn c) (fun c' => in_class k c' = true).

Lemma seek_each_unfold (n : nat) :
  seek_each reader g applyFn (S n) =
  (ok <- seek_attempts reader g applyFn (Z.to_nat maxAttempts) ;;
   if ok then seek_each reader g applyFn n else fail InternalInvariantError).
Proof. reflexivity. Qed.

Lemma seek_each_spec (n : nat) (s : state) :
  match seek_each reader g applyFn n s with
  | (Ok _, s') => substituted k (Z.of_nat n) s.(buf) s'.(buf)
  | (Err InternalInvariantError, s') =>
      Z.of_nat n <= count (in_class Lowercase) s.(buf) ->
      deadlock_window reader g s'
  | _ => True
  end.
Proof.
  revert s. induction n as [|n IH]; intros s.
  - simpl. apply substituted_refl.
  - rewrite seek_each_unfold. unfold bind at 1.
    pose proof (seek_attempts_spec reader g applyFn _ Happly
                  (Z.to_nat maxAttempts) s) as Hone.
    destruct (seek_attempts reader g applyFn (Z.to_nat maxAttempts) s)
      as [[[|]|e|] s1].
    + destruct Hone as (i & c & c' & Hi & Hc & Hc' & Hb & _).
      specialize (IH s1). rewrite Hb in IH.
      destruct (seek_each reader g applyFn n s1) as [[u|e|] s2].
      * replace (Z.of_nat (S n)) with (Z.of_nat n + 1) by lia.
        eapply substituted_step; eauto.
      * destruct e; auto. intros Hn. apply IH.
        rewrite (count_update _ _ _ _ _ Hi), Hc.
        rewrite (in_class_unique c' Lowercase k Hc').
        destruct k; try congruence; simpl; lia.
      * exact I.
    + destruct Hone as ([Hb _] & Hcur & Hmiss). unfold fail.
      intros Hn. unfold deadlock_window. rewrite Hb. split; [lia|].
      exists (cursor s). rewrite maxAttempts_nat in Hcur, Hmiss.
      split; [exact Hcur|exact Hmiss].
    + destruct Hone as [-> _]. exact I.
    + exact I.
Qed.

End Pass.

(** ** The base fill *)

Lemma filled_all (b : list byte) :
  filled (List.length b) b -> Forall (fun c => in_class Lowercase c = true) b.
Proof.
  intros H. apply Forall_forall. intros c Hc.
  destruct (In_nth_error _ _ Hc) as [p Hp].
  apply (H p c); [|exact Hp].
  apply nth_error_Some. congruence.
Qed.

Lemma filled_update (i : nat) (b : list byte) (c : byte) :
  (i < List.length b)%nat -> filled i b -> in_class Lowercase c = true ->
  filled (S i) (update b i c).
Proof.
  intros Hi Hf Hc p d Hp Hd.
  destruct (Nat.eq_dec p i) as [->|Hne].
  - rewrite (nth_error_update_eq _ _ _ Hi) in Hd. congruence.
  - rewrite (nth_error_update_neq _ _ _ _ Hne) in Hd.
    apply (Hf p d); [lia|exact Hd].
Qed.

Section BaseFill.

Variable reader : Z -> option Z.
Variable g : Generator.

Lemma generateBase_loop_spec (n : nat) :
  forall (i : Z) (s : state),
    0 <= i -> filled (Z.to_nat i) s.(buf) ->
    match generateBase_loop reader n i s with
    | (Ok _, s') =>
        List.length s'.(buf) = List.length s.(buf) /\
        filled (Z.to_nat i + n) s'.(buf)
    | (Err e, _) => e = EntropySourceError
    | (Panic, _) => True
    end.
Proof.
  induction n as [|n IH]; intros i s Hi Hf.
  - simpl. split; [reflexivity|]. rewrite Nat.add_0_r. exact Hf.
  - cbn [generateBase_loop]. unfold bind at 1.
    pose proof (draws_class reader Lowercase s) as Hd.
    change (members Lowercase) with letterCharset in Hd.
    destruct (secureRandomChar reader letterCharset s) as [[c|e|] s1].
    + destruct Hd as [Hc [Hb Hh]].
      unfold bind at 1. unfold store. rewrite Hb.
      destruct ((0 <=? i) && (i <? len (buf s))) eqn:Hin; [|exact I].
      apply andb_true_iff in Hin. destruct Hin as [_ Hlt].
      apply Z.ltb_lt in Hlt. unfold len in Hlt.
      set (s2 := mkState (cursor s1) (update (buf s) (Z.to_nat i) c)
                   (update (buf s) (Z.to_nat i) c :: hist s1)).
      assert (Hf2 : filled (Z.to_nat (i + 1)) (buf s2)).
      { replace (Z.to_nat (i + 1)) with (S (Z.to_nat i)) by lia.
        apply filled_update; [lia|exact Hf|exact Hc]. }
      specialize (IH (i + 1) s2 ltac:(lia) Hf2).
      destruct (generateBase_loop reader n (i + 1) s2) as [[u|e|] s3]; auto.
      destruct IH as [Hl Hf3]. split.
      * rewrite Hl. apply update_length.
      * replace (Z.to_nat i + S n)%nat with (Z.to_nat (i + 1) + n)%nat by lia.
        exact Hf3.
    + destruct Hd as [He _]. exact He.
    + exact I.
Qed.

Lemma generateBase_spec (s : state) :
  0 <= g.(length) ->
  match generateBase reader g s with
  | (Ok _, s') =>
      len s'.(buf) = g.(length) /\
      Forall (fun c => in_class Lowercase c = true) s'.(buf)
  | (Err e, _) => e = EntropySourceError
  | (Panic, _) => True
  end.
Proof.
  intros Hl. unfold generateBase, bind, alloc.
  set (s1 := mkState (cursor s) (repeat x00 (Z.to_nat (length g)))
               (repeat x00 (Z.to_nat (length g)) :: hist s)).
  assert (Hf : filled (Z.to_nat 0) (buf s1)) by (intros p c Hp; simpl in Hp; lia).
  pose proof (generateBase_loop_spec (Z.to_nat (length g)) 0 s1 ltac:(lia) Hf)
    as H.
  destruct (generateBase_loop reader (Z.to_nat (length g)) 0 s1)
    as [[u|e|] s2]; auto.
  destruct H as [Hlen Hfill]. simpl buf in Hlen. rewrite repeat_length in Hlen.
  split.
  - unfold len. rewrite Hlen. lia.
  - apply filled_all. rewrite Hlen. exact Hfill.
Qed.

End BaseFill.

(** ** The whole generation *)

Section Whole.

Variable reader : Z -> option Z.
Variable g : Generator.
Hypothesis Hvalid : valid g.

Lemma Generate_spec :
  match Generate reader g initial with
  | (Ok b, _) =>
      len b = g.(length) /\ Forall one_class b /\
      count (in_class Uppercase) b = g.(uppercaseCount) /\
      count (in_class Digit) b = g.(digitCount) /\
      count (in_class Special) b = g.(specialCount) /\
      count (in_class Lowercase) b =
        g.(length) - (g.(uppercaseCount) + g.(digitCount) + g.(specialCount))
  | (Err InternalInvariantError, s') => deadlock_window reader g s'
  | _ => True
  end.
Proof.
  destruct Hvalid as (Hl & Hu & Hd & Hs & _ & Hsum). unfold is_uint32 in *.
  unfold Generate. unfold bind at 1.
  pose proof (generateBase_spec reader g initial ltac:(lia)) as H1.
  destruct (generateBase reader g initial) as [[u1|e|] s1];
    [|subst e; exact I|exact I].
  destruct H1 as [Hlen Hbase].
  assert (Hc1 : forall j, count (in_class j) (buf s1) =
                          if charClass_eqb j Lowercase then length g else 0).
  { intros j. destruct (charClass_eqb j Lowercase) eqn:Ej.
    - destruct j; try discriminate. rewrite count_all; auto.
    - apply count_none. eapply Forall_impl; [|exact Hbase].
      intros c Hc. cbv beta in Hc.
      rewrite (in_class_unique c j Lowercase Hc). exact Ej. }
  assert (Ho1 : Forall one_class (buf s1)).
  { eapply Forall_impl; [|exact Hbase]. intros c Hc.
    apply (in_class_one_class c Lowercase Hc). }
  (* uppercase *)
  unfold bind at 1. unfold applyUppercase, seekNonBaseLetterAndApply.
  pose proof (seek_each_spec reader g Uppercase ltac:(discriminate) _
                (fun c Hc => draws_toUpper c Hc)
                (Z.to_nat (uppercaseCount g)) s1) as H2.
  rewrite Z2Nat.id in H2 by lia.
  match type of H2 with match ?X with _ => _ end =>
    destruct X as [[u2|e|] s2] end;
    [|destruct e; auto; apply H2; rewrite Hc1; simpl; lia|exact I].
  destruct H2 as (Hl2 & Hc2 & Ho2).
  (* digits *)
  unfold bind at 1. unfold applyDigits, seekNonBaseLetterAndApply.
  pose proof (seek_each_spec reader g Digit ltac:(discriminate)
                (fun _ => secureRandomChar reader digitCharset)
                (fun c _ => draws_class reader Digit)
                (Z.to_nat (digitCount g)) s2) as H3.
  rewrite Z2Nat.id in H3 by lia.
  match type of H3 with match ?X with _ => _ end =>
    destruct X as [[u3|e|] s3] end;
    [|destruct e; auto; apply H3; rewrite Hc2, Hc1; unfold delta; simpl; lia
     |exact I].
  destruct H3 as (Hl3 & Hc3 & Ho3).
  (* specials *)
  unfold bind at 1. unfold applySpecial, seekNonBaseLetterAndApply.
  pose proof (seek_each_spec reader g Special ltac:(discriminate)
                (fun _ => secureRandomChar reader specialCharset)
                (fun c _ => draws_class reader Special)
                (Z.to_nat (specialCount g)) s3) as H4.
  rewrite Z2Nat.id in H4 by lia.
  match type of H4 with match ?X with _ => _ end =>
    destruct X as [[u4|e|] s4] end;
    [|destruct e; auto; apply H4; rewrite Hc3, Hc2, Hc1; unfold delta; simpl;
      lia
     |exact I].
  destruct H4 as (Hl4 & Hc4 & Ho4).
  unfold current.
  split; [unfold len in *; rewrite Hl4, Hl3, Hl2; exact Hlen|].
  split; [auto|].
  rewrite !Hc4, !Hc3, !Hc2, !Hc1. unfold delta. simpl. repeat split; lia.
Qed.

End Whole.

Lemma count_nonneg (p : byte -> bool) (l : list byte) : 0 <= count p l.
Proof. unfold count. lia. Qed.

(** A configuration that asks for more uppercase letters than its length,
    as [NewGenerator] lets through when the sum of the counts wraps, never
    gets a password: the uppercase pass cannot end well. *)
Lemma Generate_fails_past_length (reader : Z -> option Z) (g : Generator)
  (b : list byte) :
  0 <= g.(length) < g.(uppercaseCount) ->
  fst (Generate reader g initial) <> Ok b.
Proof.
  intros Hl. unfold Generate. unfold bind at 1.
  pose proof (generateBase_spec reader g initial ltac:(lia)) as H1.
  destruct (generateBase reader g initial) as [[u1|e|] s1];
    [|simpl; discriminate|simpl; discriminate].
  destruct H1 as [Hlen Hbase].
  unfold bind at 1. unfold applyUppercase, seekNonBaseLetterAndApply.
  pose proof (seek_each_spec reader g Uppercase ltac:(discriminate) _
                (fun c Hc => draws_toUpper c Hc)
                (Z.to_nat (uppercaseCount g)) s1) as H2.
  rewrite Z2Nat.id in H2 by lia.
  match type of H2 with match ?X with _ => _ end =>
    destruct X as [[u2|e|] s2] end;
    [|simpl; discriminate|simpl; discriminate].
  destruct H2 as (_ & Hc2 & _). specialize (Hc2 Lowercase).
  rewrite (count_all _ _ Hbase), Hlen in Hc2. unfold delta in Hc2.
  simpl in Hc2. pose proof (count_nonneg (in_class Lowercase) (buf s2)). lia.
Qed.

(** C1: on a valid configuration a successful [Generate] returns [length]
    bytes, each in exactly one of the four classes, with as many uppercase
    letters, digits and specials as asked for, the others base letters. *)
Theorem Generate_output (reader : Z -> option Z) (g : Generator)
  (b : list byte) :
  valid g -> fst (Generate reader g initial) = Ok b ->
  len b = g.(length) /\ Forall one_class b /\
  count (in_class Uppercase) b = g.(uppercaseCount) /\
  count (in_class Digit) b = g.(digitCount) /\
  count (in_class Special) b = g.(specialCount) /\
  count (in_class Lowercase) b =
    g.(length) - (g.(uppercaseCount) + g.(digitCount) + g.(specialCount)).
Proof.
  intros Hv Hrun. pose proof (Generate_spec reader g Hv) as H.
  destruct (Generate reader g initial) as [r s']. simpl in Hrun. subst r.
  exact H.
Qed.

(** C7, as the code has it: on a valid configuration [Generate] ends on the
    internal invariant error only in a state where a base letter is left
    and the last 100,000 answers of the entropy source, the position draws
    of one substitution, all fell on bytes that are no base letter. *)
Theorem Generate_invariant_error_window (reader : Z -> option Z) (g : Generator) :
  valid g ->
  fst (Generate reader g initial) = Err InternalInvariantError ->
  deadlock_window reader g (snd (Generate reader g initial)).
Proof.
  intros Hv Hrun. pose proof (Generate_spec reader g Hv) as H.
  destruct (Generate reader g initial) as [r s']. simpl in Hrun. subst r.
  exact H.
Qed.

Lemma valid_two_uppercase : valid two_uppercase.
Proof. unfold valid, is_uint32. simpl. lia. Qed.

Lemma Generate_output_witness :
  valid readme_example /\
  let b := list_byte_of_string "ZN8>rtwvcbqkdc" in
  len b = 14 /\ Forall one_class b /\
  count (in_class Uppercase) b = 2 /\
  count (in_class Digit) b = 1 /\
  count (in_class Special) b = 1 /\
  count (in_class Lowercase) b = 14 - (2 + 1 + 1).
Proof.
  split; [exact valid_readme_example|].
  apply (Generate_output halving_tape readme_example
           (list_byte_of_string "ZN8>rtwvcbqkdc")).
  - exact valid_readme_example.
  - vm_compute. reflexivity.
Defined.

(** C7 as stated fails: on the valid configuration of length 2 with 2
    uppercase letters and the tape that always answers 0, the first
    substitution takes position 0 and the second draws position 0 for
    100,000 times. *)
Lemma Generate_invariant_error_reached :
  NewGenerator 2 2 0 0 = Ok two_uppercase /\
  valid two_uppercase /\
  fst (Generate (constant_tape 0) two_uppercase initial)
  = Err InternalInvariantError.
Proof.
  split; [reflexivity|].
  split; [exact valid_two_uppercase|]. vm_compute. reflexivity.
Qed.

Lemma Generate_invariant_error_window_witness :
  valid two_uppercase /\
  deadlock_window (constant_tape 0) two_uppercase
    (snd (Generate (constant_tape 0) two_uppercase initial)).
Proof.
  split; [exact valid_two_uppercase|].
  apply (Generate_invariant_error_window (constant_tape 0) two_uppercase).
  - exact valid_two_uppercase.
  - vm_compute. reflexivity.
Defined.

(** ** No ambiguous letter *)

Lemma tidy_frame (s s' : state) : frame s s' -> tidy s -> tidy s'.
Proof. unfold frame, tidy. intros [-> ->] H. exact H. Qed.

Lemma keeps_tidy_bind {A B : Type} (m : M A) (k : A -> M B) :
  keeps_tidy m -> (forall a, keeps_tidy (k a)) -> keeps_tidy (bind m k).
Proof.
  intros Hm Hk s Hs. unfold bind. specialize (Hm s Hs).
  destruct (m s) as [[a|e|] s1]; simpl in *; auto.
  apply Hk. exact Hm.
Qed.

Lemma keeps_tidy_ret {A : Type} (a : A) : keeps_tidy (ret a).
Proof. intros s Hs. exact Hs. Qed.

Lemma keeps_tidy_fail {A : Type} (e : error) : keeps_tidy (@fail A e).
Proof. intros s Hs. exact Hs. Qed.

Lemma keeps_tidy_alloc (n : Z) : keeps_tidy (alloc n).
Proof.
  intros s [Hb Hh]. unfold alloc, tidy. simpl.
  split; [apply clean_repeat|]. constructor; [apply clean_repeat|exact Hh].
Qed.

Lemma keeps_tidy_store (i : Z) (x : byte) :
  ambiguous x = false -> keeps_tidy (store i x).
Proof.
  intros Hx s [Hb Hh]. unfold store.
  destruct ((0 <=? i) && (i <? len (buf s))); simpl; [|split; assumption].
  assert (Hu : clean (update (buf s) (Z.to_nat i) x))
    by (apply Forall_update; assumption).
  split; [exact Hu|]. constructor; assumption.
Qed.

Section Tidy.

Variable reader : Z -> option Z.
Variable g : Generator.

Lemma keeps_tidy_seek_attempts (applyFn : byte -> M byte) :
  (forall c, in_class Lowercase c = true ->
             draws (applyFn c) (fun c' => ambiguous c' = false)) ->
  forall fuel, keeps_tidy (seek_attempts reader g applyFn fuel).
Proof.
  intros Happly fuel s Hs.
  pose proof (seek_attempts_spec reader g applyFn _ Happly fuel s) as H.
  destruct (seek_attempts reader g applyFn fuel s) as [[[|]|e|] s']; simpl.
  - destruct H as (i & c & c' & _ & _ & Hc' & Hb & Hh).
    destruct Hs as [Hbs Hhs].
    assert (Hu : clean (buf s'))
      by (rewrite Hb; apply Forall_update; assumption).
    split; [exact Hu|]. rewrite Hh. constructor; assumption.
  - destruct H as (Hf & _). eapply tidy_frame; eauto.
  - destruct H as (_ & Hf). eapply tidy_frame; eauto.
  - eapply tidy_frame; eauto.
Qed.

Lemma keeps_tidy_seek_each (applyFn : byte -> M byte) :
  (forall c, in_class Lowercase c = true ->
             draws (applyFn c) (fun c' => ambiguous c' = false)) ->
  forall n, keeps_tidy (seek_each reader g applyFn n).
Proof.
  intros Happly. induction n as [|n IH].
  - apply keeps_tidy_ret.
  - change (seek_each reader g applyFn (S n))
      with (ok <- seek_attempts reader g applyFn (Z.to_nat maxAttempts) ;;
            if ok then seek_each reader g applyFn n
            else fail InternalInvariantError).
    apply keeps_tidy_bind; [apply keeps_tidy_seek_attempts; exact Happly|].
    intros [|]; [exact IH|apply keeps_tidy_fail].
Qed.

Lemma keeps_tidy_pass (k : charClass) (count : Z) (applyFn : byte -> M byte) :
  (forall c, in_class Lowercase c = true ->
             draws (applyFn c) (fun c' => in_class k c' = true)) ->
  keeps_tidy (seekNonBaseLetterAndApply reader g count applyFn).
Proof.
  intros Happly. apply keeps_tidy_seek_each. intros c Hc.
  eapply draws_weaken; [apply Happly; exact Hc|].
  intros c' Hc'. apply (in_class_not_ambiguous c' k Hc').
Qed.

Lemma keeps_tidy_generateBase_loop (n : nat) :
  forall i, keeps_tidy (generateBase_loop reader n i).
Proof.
  induction n as [|n IH]; intros i.
  - apply keeps_tidy_ret.
  - cbn [generateBase_loop]. intros s Hs. unfold bind at 1.
    pose proof (draws_class reader Lowercase s) as Hd.
    change (members Lowercase) with letterCharset in Hd.
    destruct (secureRandomChar reader letterCharset s) as [[c|e|] s1].
    + destruct Hd as [Hc Hf].
      apply (keeps_tidy_bind (store i c)
               (fun _ => generateBase_loop reader n (i + 1))).
      * apply keeps_tidy_store. apply (in_class_not_ambiguous c Lowercase Hc).
      * intros _. apply IH.
      * eapply tidy_frame; eauto.
    + destruct Hd as [_ Hf]. eapply tidy_frame; eauto.
    + eapply tidy_frame; eauto.
Qed.

Lemma keeps_tidy_Generate : keeps_tidy (Generate reader g).
Proof.
  unfold Generate.
  apply keeps_tidy_bind.
  { unfold generateBase. apply keeps_tidy_bind; [apply keeps_tidy_alloc|].
    intros _. apply keeps_tidy_generateBase_loop. }
  intros _. apply keeps_tidy_bind.
  { apply (keeps_tidy_pass Uppercase). intros c Hc. apply draws_toUpper, Hc. }
  intros _. apply keeps_tidy_bind.
  { apply (keeps_tidy_pass Digit). intros c _. apply (draws_class reader Digit). }
  intros _. apply keeps_tidy_bind.
  { apply (keeps_tidy_pass Special). intros c _.
    apply (draws_class reader Special). }
  intros _ s Hs. exact Hs.
Qed.

(** What [Generate] returns is the content of the slice at the end. *)
Lemma Generate_returns_slice (s : state) :
  match Generate reader g s with
  | (Ok b, s') => b = s'.(buf)
  | _ => True
  end.
Proof.
  unfold Generate, bind, current.
  destruct (generateBase reader g s) as [[u1|e|] s1]; auto.
  destruct (applyUppercase reader g s1) as [[u2|e|] s2]; auto.
  destruct (applyDigits reader g s2) as [[u3|e|] s3]; auto.
  destruct (applySpecial reader g s3) as [[u4|e|] s4]; auto.
Qed.

End Tidy.

Lemma tidy_initial : tidy initial.
Proof. split; constructor. Qed.

(** C10: whatever the configuration and the entropy source, no content the
    slice holds during [Generate], and no slice it returns, has one of the
    letters l, o, L and O. *)
Theorem Generate_no_ambiguous_letter (reader : Z -> option Z) (g : Generator) :
  Forall clean (hist (snd (Generate reader g initial))) /\
  match fst (Generate reader g initial) with
  | Ok b => clean b
  | _ => True
  end.
Proof.
  pose proof (keeps_tidy_Generate reader g initial tidy_initial) as [Hb Hh].
  pose proof (Generate_returns_slice reader g initial) as Hr.
  destruct (Generate reader g initial) as [[b|e|] s']; simpl in *;
    split; auto.
  subst b. exact Hb.
Qed.

(** * Further properties *)

(** ** The constructor on sums that do not wrap *)

(** When the three counts add up below [2^32], [NewGenerator] fails exactly
    on a length above 128 or a sum of the counts above the length, and
    otherwise returns the four values. *)
Theorem NewGenerator_without_overflow (l u d s : Z) :
  is_uint32 u -> is_uint32 d -> is_uint32 s -> u + d + s < 2 ^ 32 ->
  (128 < l \/ l < u + d + s -> NewGenerator l u d s = Err ValidationError) /\
  (l <= 128 /\ u + d + s <= l ->
   NewGenerator l u d s = Ok (mkGenerator l u d s)).
Proof.
  unfold is_uint32. intros Hu Hd Hs Hsum.
  assert (E : wrap32 (u + d + s) = u + d + s) by (apply wrap32_small; lia).
  split.
  - intros H. apply NewGenerator_rejects. rewrite E. exact H.
  - intros [H1 H2]. unfold NewGenerator. cbv zeta. simpl.
    rewrite wrap32_sum, E.
    destruct (Z.ltb_spec 128 l); [lia|].
    destruct (Z.ltb_spec l (u + d + s)); [lia|]. reflexivity.
Qed.

Lemma NewGenerator_without_overflow_witness :
  (is_uint32 2 /\ is_uint32 1 /\ 2 + 1 + 1 < 2 ^ 32) /\
  (128 < 14 \/ 14 < 2 + 1 + 1 -> NewGenerator 14 2 1 1 = Err ValidationError) /\
  (14 <= 128 /\ 2 + 1 + 1 <= 14 ->
   NewGenerator 14 2 1 1 = Ok (mkGenerator 14 2 1 1)).
Proof.
  split; [unfold is_uint32; lia|].
  apply (NewGenerator_without_overflow 14 2 1 1); unfold is_uint32; lia.
Defined.

(** ** Bounds on the entropy *)

Lemma BitLen_lower (x k : Z) : 0 <= k -> 2 ^ k <= x -> k + 1 <= BitLen x.
Proof.
  intros Hk Hx.
  assert (0 < 2 ^ k) by (apply Z.pow_pos_nonneg; lia).
  rewrite BitLen_log2 by lia.
  assert (k <= Z.log2 x) by (apply Z.log2_le_pow2; lia). lia.
Qed.

(** A larger base gains at least one on every positive power. *)
Lemma pow_gap (a b n : Z) : 0 < b < a -> 1 <= n -> b ^ n + 1 <= a ^ n.
Proof.
  intros Hab Hn.
  assert (H : b ^ n + 1 <= (b + 1) ^ n).
  { pattern n. apply Zlt_lower_bound_ind with (z := 1); [|exact Hn].
    intros m IH Hm. destruct (Z.eq_dec m 1) as [->|Hne].
    - rewrite !Z.pow_1_r. lia.
    - replace m with (Z.succ (m - 1)) by lia.
      rewrite !Z.pow_succ_r by lia.
      assert (IH' : b ^ (m - 1) + 1 <= (b + 1) ^ (m - 1)) by (apply IH; lia).
      assert (0 < b ^ (m - 1)) by (apply Z.pow_pos_nonneg; lia).
      nia. }
  assert ((b + 1) ^ n <= a ^ n) by (apply Z.pow_le_mono_l; lia).
  lia.
Qed.

(** The product of [minCombinations], between two powers of the length. *)
Lemma minCombinations_between (g : Generator) :
  0 <= g.(uppercaseCount) -> 0 <= g.(digitCount) -> 0 <= g.(specialCount) ->
  g.(uppercaseCount) + g.(digitCount) + g.(specialCount) <= g.(length) ->
  11 ^ g.(length) - 1 <= minCombinations g.
Proof.
  intros Hu Hd Hs Hsum. unfold minCombinations. cbv zeta.
  set (bc := length g - (uppercaseCount g + digitCount g + specialCount g)).
  assert (Hbc : 0 <= bc) by (unfold bc; lia).
  assert (H1 : 0 < 11 ^ bc <= (1 + 24) ^ bc)
    by (split; [apply Z.pow_pos_nonneg|apply Z.pow_le_mono_l]; lia).
  assert (H2 : 0 < 11 ^ uppercaseCount g <= (1 + 24) ^ uppercaseCount g)
    by (split; [apply Z.pow_pos_nonneg|apply Z.pow_le_mono_l]; lia).
  assert (H3 : 0 < 11 ^ digitCount g <= (1 + 10) ^ digitCount g)
    by (split; [apply Z.pow_pos_nonneg|apply Z.pow_le_mono_l]; lia).
  assert (H4 : 0 < 11 ^ specialCount g <= (1 + 18) ^ specialCount g)
    by (split; [apply Z.pow_pos_nonneg|apply Z.pow_le_mono_l]; lia).
  replace (length g)
    with (bc + uppercaseCount g + digitCount g + specialCount g)
    by (unfold bc; lia).
  rewrite !Z.pow_add_r by lia.
  assert (11 ^ bc * 11 ^ uppercaseCount g
          <= (1 + 24) ^ bc * (1 + 24) ^ uppercaseCount g) by nia.
  assert (11 ^ bc * 11 ^ uppercaseCount g * 11 ^ digitCount g
          <= (1 + 24) ^ bc * (1 + 24) ^ uppercaseCount g * (1 + 10) ^ digitCount g)
    by (apply Z.mul_le_mono_nonneg; nia).
  assert (11 ^ bc * 11 ^ uppercaseCount g * 11 ^ digitCount g
            * 11 ^ specialCount g
          <= (1 + 24) ^ bc * (1 + 24) ^ uppercaseCount g * (1 + 10) ^ digitCount g
             * (1 + 18) ^ specialCount g)
    by (apply Z.mul_le_mono_nonneg; nia).
  lia.
Qed.

(** On a valid configuration every character counts for more than 4 and at
    most 7 bits of [EntropyMax], and for more than 3 and at most 5 bits of
    [EntropyMin]; both are 0 for the empty password. *)
Theorem entropy_per_character (g : Generator) :
  valid g ->
  4 * g.(length) <= EntropyMax g <= 7 * g.(length) /\
  exists m, EntropyMin g = Ok m /\ 3 * g.(length) <= m <= 5 * g.(length).
Proof.
  unfold valid, is_uint32. intros (Hl & Hu & Hd & Hs & _ & Hsum).
  pose proof (pool_range g) as Hp.
  split.
  - rewrite EntropyMax_formula by (unfold is_uint32; lia).
    assert (Hpow : 0 < pool g ^ length g <= 2 ^ (7 * length g))
      by (apply pow_below; lia).
    split; [|apply BitLen_bound; lia].
    destruct (Z.eq_dec (length g) 0) as [E|E].
    + rewrite E. simpl. lia.
    + assert (4 * length g + 1 <= BitLen (pool g ^ length g - 1)); [|lia].
      apply BitLen_lower; [lia|].
      rewrite Z.pow_mul_r by lia. change (2 ^ 4) with 16.
      pose proof (pow_gap (pool g) 16 (length g) ltac:(lia) ltac:(lia)). lia.
  - exists (BitLen (minCombinations g)).
    split; [apply EntropyMin_formula; unfold is_uint32; lia|].
    pose proof (minCombinations_range g ltac:(lia) ltac:(lia) ltac:(lia) Hsum)
      as Hr.
    pose proof (minCombinations_between g ltac:(lia) ltac:(lia) ltac:(lia) Hsum)
      as Hb.
    split; [|apply BitLen_bound; lia].
    destruct (Z.eq_dec (length g) 0) as [E|E].
    + rewrite E. pose proof (BitLen_nonneg (minCombinations g)). lia.
    + assert (3 * length g + 1 <= BitLen (minCombinations g)); [|lia].
      apply BitLen_lower; [lia|].
      rewrite Z.pow_mul_r by lia. change (2 ^ 3) with 8.
      pose proof (pow_gap 11 8 (length g) ltac:(lia) ltac:(lia)). lia.
Qed.

Lemma entropy_per_character_witness :
  valid readme_example /\
  4 * 14 <= EntropyMax readme_example <= 7 * 14 /\
  exists m, EntropyMin readme_example = Ok m /\ 3 * 14 <= m <= 5 * 14.
Proof.
  split; [exact valid_readme_example|].
  apply (entropy_per_character readme_example). exact valid_readme_example.
Defined.

(** A longer password with the same counts never has less entropy, by
    either estimate. *)
Theorem entropy_monotone_in_length (g : Generator) (l2 : Z) :
  valid g -> g.(length) <= l2 < 2 ^ 32 ->
  EntropyMax g
  <= EntropyMax (mkGenerator l2 g.(uppercaseCount) g.(digitCount) g.(specialCount))
  /\
  exists m m2,
    EntropyMin g = Ok m /\
    EntropyMin (mkGenerator l2 g.(uppercaseCount) g.(digitCount) g.(specialCount))
    = Ok m2 /\
    m <= m2.
Proof.
  unfold valid, is_uint32. intros (Hl & Hu & Hd & Hs & _ & Hsum) Hl2.
  set (g2 := mkGenerator l2 (uppercaseCount g) (digitCount g) (specialCount g)).
  pose proof (pool_range g) as Hp.
  split.
  - rewrite (EntropyMax_formula g), (EntropyMax_formula g2)
      by (unfold is_uint32; simpl; lia).
    replace (pool g2) with (pool g) by reflexivity. simpl length.
    apply BitLen_mono.
    assert (0 < pool g ^ length g) by (apply Z.pow_pos_nonneg; lia).
    assert (pool g ^ length g <= pool g ^ l2)
      by (apply Z.pow_le_mono_r; lia).
    lia.
  - exists (BitLen (minCombinations g)), (BitLen (minCombinations g2)).
    split; [apply EntropyMin_formula; unfold is_uint32; lia|].
    split; [apply EntropyMin_formula; unfold is_uint32; simpl; lia|].
    apply BitLen_mono.
    pose proof (minCombinations_range g ltac:(lia) ltac:(lia) ltac:(lia) Hsum)
      as Hr.
    split; [lia|].
    unfold minCombinations, g2. cbv zeta. simpl.
    set (rest := uppercaseCount g + digitCount g + specialCount g).
    assert (H1 : 0 < (1 + 24) ^ (length g - rest))
      by (apply Z.pow_pos_nonneg; unfold rest; lia).
    assert (H1' : (1 + 24) ^ (length g - rest) <= (1 + 24) ^ (l2 - rest))
      by (apply Z.pow_le_mono_r; unfold rest; lia).
    assert (H2 : 0 < (1 + 24) ^ uppercaseCount g)
      by (apply Z.pow_pos_nonneg; lia).
    assert (H3 : 0 < (1 + 10) ^ digitCount g) by (apply Z.pow_pos_nonneg; lia).
    assert (H4 : 0 < (1 + 18) ^ specialCount g)
      by (apply Z.pow_pos_nonneg; lia).
    apply Z.sub_le_mono_r.
    repeat (apply Z.mul_le_mono_nonneg_r; [lia|]). exact H1'.
Qed.

Lemma entropy_monotone_in_length_witness :
  (valid readme_example /\ 14 <= 20 < 2 ^ 32) /\
  EntropyMax readme_example <= EntropyMax (mkGenerator 20 2 1 1) /\
  exists m m2,
    EntropyMin readme_example = Ok m /\
    EntropyMin (mkGenerator 20 2 1 1) = Ok m2 /\ m <= m2.
Proof.
  split; [split; [exact valid_readme_example|lia]|].
  apply (entropy_monotone_in_length readme_example 20);
    [exact valid_readme_example|simpl; lia].
Defined.

(** ** No panic on a valid configuration *)

Lemma quiet_ret {A : Type} (a : A) : quiet (ret a).
Proof. intros s. simpl. discriminate. Qed.

Lemma quiet_bind {A B : Type} (m : M A) (k : A -> M B) :
  quiet m -> (forall a, quiet (k a)) -> quiet (bind m k).
Proof.
  intros Hm Hk s. unfold bind. specialize (Hm s).
  destruct (m s) as [[a|e|] s1]; simpl in *.
  - apply Hk.
  - discriminate.
  - exfalso. apply Hm. reflexivity.
Qed.

Lemma wrap8_range (x : Z) : 0 <= x -> 0 <= wrap8 x <= x.
Proof.
  intros Hx. unfold wrap8. split.
  - apply Z.mod_pos_bound. lia.
  - apply Z.mod_le; lia.
Qed.

Lemma Z_of_byte_nonneg (b : byte) : 0 <= Z_of_byte b.
Proof. unfold Z_of_byte. lia. Qed.

(** [charsetAt] panics exactly on a charset whose length is a multiple of
    256, the empty one among them. *)
Lemma charsetAt_Ok (charset : list byte) (b : byte) :
  wrap8 (len charset) <> 0 -> exists c, charsetAt charset b = Ok c.
Proof.
  intros Hn. unfold charsetAt.
  pose proof (wrap8_range (len charset) ltac:(unfold len; lia)) as Hr.
  destruct (Z.eqb_spec (wrap8 (len charset)) 0) as [E|_]; [contradiction|].
  pose proof (Z_of_byte_nonneg b) as Hb.
  pose proof (Z.mod_pos_bound (Z_of_byte b) (wrap8 (len charset)) ltac:(lia))
    as Hi.
  destruct (nth_error charset (Z.to_nat (Z_of_byte b mod wrap8 (len charset))))
    as [c|] eqn:E.
  - exists c. reflexivity.
  - apply nth_error_None in E. unfold len in *. lia.
Qed.

Lemma charsetAt_Panic (charset : list byte) (b : byte) :
  wrap8 (len charset) = 0 -> charsetAt charset b = Panic.
Proof. intros Hn. unfold charsetAt. rewrite Hn. reflexivity. Qed.

Lemma charsetAt_not_Err (charset : list byte) (b : byte) (e : error) :
  charsetAt charset b <> Err e.
Proof.
  unfold charsetAt. destruct (wrap8 (len charset) =? 0); [discriminate|].
  destruct (nth_error charset _); discriminate.
Qed.

Section Quiet.

Variable reader : Z -> option Z.
Variable g : Generator.

Lemma quiet_rand_Int (max : Z) : 0 < max -> quiet (rand_Int reader max).
Proof.
  intros Hmax s. unfold rand_Int.
  destruct (Z.leb_spec max 0); [lia|].
  destruct (reader (cursor s)); simpl; discriminate.
Qed.

Lemma quiet_rand_Read (n : Z) : quiet (rand_Read reader n).
Proof.
  intros s. unfold rand_Read. destruct (reader (cursor s)); simpl; discriminate.
Qed.

Lemma quiet_secureRandomByte : quiet (secureRandomByte reader).
Proof.
  unfold secureRandomByte.
  apply quiet_bind; [apply quiet_rand_Int; lia|]. intros bufLen.
  apply quiet_bind; [apply quiet_rand_Read|]. intros b.
  apply quiet_ret.
Qed.

Lemma quiet_secureRandomChar (charset : list byte) :
  wrap8 (len charset) <> 0 -> quiet (secureRandomChar reader charset).
Proof.
  intros Hn. unfold secureRandomChar.
  apply quiet_bind; [apply quiet_secureRandomByte|]. intros b s.
  unfold lift. simpl. destruct (charsetAt_Ok charset b Hn) as [c ->].
  discriminate.
Qed.

Lemma seek_attempts_quiet (applyFn : byte -> M byte) (Q : byte -> Prop) :
  (forall c, in_class Lowercase c = true -> draws (applyFn c) Q) ->
  (forall c, quiet (applyFn c)) ->
  0 < g.(length) ->
  forall (fuel : nat) (s : state),
    len s.(buf) = g.(length) ->
    fst (seek_attempts reader g applyFn fuel s) <> Panic.
Proof.
  intros Happly Hquiet Hlen. induction fuel as [|fuel IH]; intros s Hbuf.
  - simpl. discriminate.
  - cbn [seek_attempts]. unfold bind at 1. unfold rand_Int.
    destruct (Z.leb_spec (length g) 0) as [H0|_]; [lia|].
    destruct (reader (cursor s)) as [v|] eqn:Ev; [|simpl; discriminate].
    pose proof (Z.mod_pos_bound v (length g) Hlen) as Hpos.
    unfold bind at 1. unfold load. cbn [buf advance cursor hist].
    assert (Hin : (0 <=? v mod length g) && (v mod length g <? len (buf s))
                  = true).
    { apply andb_true_iff. split; [apply Z.leb_le|apply Z.ltb_lt]; lia. }
    rewrite Hin.
    destruct (nth_error (buf s) (Z.to_nat (v mod length g))) as [c|] eqn:Ec.
    2:{ apply nth_error_None in Ec. unfold len in Hbuf. lia. }
    rewrite Contains_letterCharset.
    destruct (in_class Lowercase c) eqn:Hc; cbn [negb].
    + unfold bind at 1. pose proof (Happly c Hc (advance s)) as Ha.
      pose proof (Hquiet c (advance s)) as Hq.
      destruct (applyFn c (advance s)) as [[c'|e|] s1];
        [|simpl; discriminate|simpl in Hq; contradiction].
      destruct Ha as [_ [Hb _]]. cbn [buf advance] in Hb.
      unfold bind, store, ret. rewrite Hb, Hin. simpl. discriminate.
    + apply IH. exact Hbuf.
Qed.

Lemma seek_each_quiet (k : charClass) (applyFn : byte -> M byte) :
  k <> Lowercase ->
  (forall c, in_class Lowercase c = true ->
             draws (applyFn c) (fun c' => in_class k c' = true)) ->
  (forall c, quiet (applyFn c)) ->
  forall (n : nat) (s : state),
    (n = O \/ 0 < g.(length)) -> len s.(buf) = g.(length) ->
    fst (seek_each reader g applyFn n s) <> Panic.
Proof.
  intros Hk Happly Hquiet. induction n as [|n IH]; intros s Hn Hbuf.
  - simpl. discriminate.
  - destruct Hn as [Hn|Hlen]; [discriminate|].
    rewrite (seek_each_unfold reader g applyFn n). unfold bind at 1.
    pose proof (seek_attempts_spec reader g applyFn _ Happly
                  (Z.to_nat maxAttempts) s) as Hone.
    pose proof (seek_attempts_quiet applyFn _ Happly Hquiet Hlen
                  (Z.to_nat maxAttempts) s Hbuf) as Hq.
    destruct (seek_attempts reader g applyFn (Z.to_nat maxAttempts) s)
      as [[[|]|e|] s1]; simpl in Hq.
    + destruct Hone as (i & c & c' & _ & _ & _ & Hb & _).
      apply IH; [right; exact Hlen|].
      unfold len in *. rewrite Hb, update_length. exact Hbuf.
    + unfold fail. simpl. discriminate.
    + simpl. discriminate.
    + contradiction.
Qed.

Lemma generateBase_loop_quiet (n : nat) :
  forall (i : Z) (s : state),
    0 <= i -> i + Z.of_nat n <= len s.(buf) ->
    fst (generateBase_loop reader n i s) <> Panic.
Proof.
  induction n as [|n IH]; intros i s Hi Hn.
  - simpl. discriminate.
  - cbn [generateBase_loop]. unfold bind at 1.
    pose proof (draws_class reader Lowercase s) as Hd.
    change (members Lowercase) with letterCharset in Hd.
    pose proof (quiet_secureRandomChar letterCharset ltac:(discriminate) s)
      as Hq.
    destruct (secureRandomChar reader letterCharset s) as [[c|e|] s1];
      [|simpl; discriminate|simpl in Hq; contradiction].
    destruct Hd as [_ [Hb _]].
    unfold bind at 1. unfold store. rewrite Hb.
    assert (Hin : (0 <=? i) && (i <? len (buf s)) = true).
    { apply andb_true_iff. split; [apply Z.leb_le|apply Z.ltb_lt]; lia. }
    rewrite Hin. apply IH; [lia|]. cbn [buf].
    unfold len in *. rewrite update_length. lia.
Qed.

Lemma Generate_quiet :
  0 <= g.(length) ->
  0 < g.(length) \/
  (g.(uppercaseCount) <= 0 /\ g.(digitCount) <= 0 /\ g.(specialCount) <= 0) ->
  fst (Generate reader g initial) <> Panic.
Proof.
  intros Hl Hpos.
  unfold Generate. unfold bind at 1.
  pose proof (generateBase_spec reader g initial ltac:(lia)) as H1.
  assert (Hq1 : fst (generateBase reader g initial) <> Panic).
  { unfold generateBase, bind, alloc.
    apply generateBase_loop_quiet; [lia|]. cbn [buf]. unfold len.
    rewrite repeat_length. lia. }
  destruct (generateBase reader g initial) as [[u1|e|] s1];
    [|simpl; discriminate|simpl in Hq1; contradiction].
  destruct H1 as [Hlen _].
  (* uppercase *)
  unfold bind at 1. unfold applyUppercase, seekNonBaseLetterAndApply.
  pose proof (seek_each_spec reader g Uppercase ltac:(discriminate) _
                (fun c Hc => draws_toUpper c Hc)
                (Z.to_nat (uppercaseCount g)) s1) as H2.
  pose proof (seek_each_quiet Uppercase _ ltac:(discriminate)
                (fun c Hc => draws_toUpper c Hc)
                (fun c => quiet_ret _)
                (Z.to_nat (uppercaseCount g)) s1 ltac:(lia) Hlen) as Hq2.
  match type of H2 with match ?X with _ => _ end =>
    destruct X as [[u2|e|] s2] end;
    [|simpl; discriminate|simpl in Hq2; contradiction].
  destruct H2 as (Hl2 & _ & _).
  assert (Hlen2 : len (buf s2) = length g)
    by (unfold len in *; rewrite Hl2; exact Hlen).
  (* digits *)
  unfold bind at 1. unfold applyDigits, seekNonBaseLetterAndApply.
  pose proof (seek_each_spec reader g Digit ltac:(discriminate)
                (fun _ => secureRandomChar reader digitCharset)
                (fun c _ => draws_class reader Digit)
                (Z.to_nat (digitCount g)) s2) as H3.
  pose proof (seek_each_quiet Digit
                (fun _ => secureRandomChar reader digitCharset)
                ltac:(discriminate)
                (fun c _ => draws_class reader Digit)
                (fun _ => quiet_secureRandomChar digitCharset
                            ltac:(discriminate))
                (Z.to_nat (digitCount g)) s2 ltac:(lia) Hlen2) as Hq3.
  match type of H3 with match ?X with _ => _ end =>
    destruct X as [[u3|e|] s3] end;
    [|simpl; discriminate|simpl in Hq3; contradiction].
  destruct H3 as (Hl3 & _ & _).
  assert (Hlen3 : len (buf s3) = length g)
    by (unfold len in *; rewrite Hl3; exact Hlen2).
  (* specials *)
  unfold bind at 1. unfold applySpecial, seekNonBaseLetterAndApply.
  pose proof (seek_each_quiet Special
                (fun _ => secureRandomChar reader specialCharset)
                ltac:(discriminate)
                (fun c _ => draws_class reader Special)
                (fun _ => quiet_secureRandomChar specialCharset
                            ltac:(discriminate))
                (Z.to_nat (specialCount g)) s3 ltac:(lia) Hlen3) as Hq4.
  destruct (seek_each reader g
              (fun _ => secureRandomChar reader specialCharset)
              (Z.to_nat (specialCount g)) s3) as [[u4|e|] s4];
    [|simpl; discriminate|simpl in Hq4; contradiction].
  unfold current. simpl. discriminate.
Qed.

End Quiet.

(** On a valid configuration [Generate] never panics: no draw of a position
    in an empty range, no index out of the slice or of a charset, no
    division by zero. *)
Theorem Generate_never_panics (reader : Z -> option Z) (g : Generator) :
  valid g -> fst (Generate reader g initial) <> Panic.
Proof.
  unfold valid, is_uint32. intros (Hl & Hu & Hd & Hs & _ & Hsum).
  apply Generate_quiet; lia.
Qed.

Lemma Generate_never_panics_witness :
  valid readme_example /\
  fst (Generate halving_tape readme_example initial) <> Panic.
Proof.
  split; [exact valid_readme_example|].
  apply (Generate_never_panics halving_tape readme_example).
  exact valid_readme_example.
Defined.

(** ** Entropy errors come from the source *)

Lemma blames_bind (reader : Z -> option Z) {A B : Type}
  (m : M A) (k : A -> M B) :
  blames reader m -> (forall a, blames reader (k a)) ->
  blames reader (bind m k).
Proof.
  intros Hm Hk s. unfold bind. specialize (Hm s).
  destruct (m s) as [[a|e|] s1]; simpl in *.
  - apply Hk.
  - intros E. apply Hm. inversion E. reflexivity.
  - discriminate.
Qed.

Lemma blames_never (reader : Z -> option Z) {A : Type} (m : M A) :
  (forall s, fst (m s) <> Err EntropySourceError) -> blames reader m.
Proof. intros H s E. destruct (H s E). Qed.

Lemma blames_store (reader : Z -> option Z) (i : Z) (x : byte) :
  blames reader (store i x).
Proof.
  apply blames_never. intros s. unfold store.
  destruct ((0 <=? i) && (i <? len (buf s))); simpl; discriminate.
Qed.

Lemma blames_load (reader : Z -> option Z) (i : Z) : blames reader (load i).
Proof.
  apply blames_never. intros s. unfold load.
  destruct ((0 <=? i) && (i <? len (buf s))); [|simpl; discriminate].
  destruct (nth_error (buf s) (Z.to_nat i)); simpl; discriminate.
Qed.

Section Blame.

Variable reader : Z -> option Z.
Variable g : Generator.

Lemma blames_rand_Int (max : Z) : blames reader (rand_Int reader max).
Proof.
  intros s. unfold rand_Int. destruct (max <=? 0); [simpl; discriminate|].
  destruct (reader (cursor s)) eqn:E; simpl; [discriminate|].
  intros _. replace (cursor s + 1 - 1) with (cursor s) by lia. exact E.
Qed.

Lemma blames_rand_Read (n : Z) : blames reader (rand_Read reader n).
Proof.
  intros s. unfold rand_Read.
  destruct (reader (cursor s)) eqn:E; simpl; [discriminate|].
  intros _. replace (cursor s + 1 - 1) with (cursor s) by lia. exact E.
Qed.

Lemma blames_secureRandomChar (charset : list byte) :
  blames reader (secureRandomChar reader charset).
Proof.
  unfold secureRandomChar, secureRandomByte.
  apply blames_bind.
  - apply blames_bind; [apply blames_rand_Int|]. intros bufLen.
    apply blames_bind; [apply blames_rand_Read|]. intros b.
    apply blames_never. intros s. simpl. discriminate.
  - intros b. apply blames_never. intros s. unfold lift. simpl.
    apply charsetAt_not_Err.
Qed.

Lemma blames_seek_attempts (applyFn : byte -> M byte) :
  (forall c, blames reader (applyFn c)) ->
  forall fuel, blames reader (seek_attempts reader g applyFn fuel).
Proof.
  intros Happly. induction fuel as [|fuel IH].
  - apply blames_never. intros s. simpl. discriminate.
  - cbn [seek_attempts].
    apply blames_bind; [apply blames_rand_Int|]. intros pos.
    apply blames_bind; [apply blames_load|]. intros char.
    destruct (negb (strings_Contains letterCharset (string_of_byte char)));
      [exact IH|].
    apply blames_bind; [apply Happly|]. intros newChar.
    apply blames_bind; [apply blames_store|]. intros _.
    apply blames_never. intros s. simpl. discriminate.
Qed.

Lemma blames_seek_each (applyFn : byte -> M byte) :
  (forall c, blames reader (applyFn c)) ->
  forall n, blames reader (seek_each reader g applyFn n).
Proof.
  intros Happly. induction n as [|n IH].
  - apply blames_never. intros s. simpl. discriminate.
  - rewrite seek_each_unfold.
    apply blames_bind; [apply blames_seek_attempts; exact Happly|].
    intros [|]; [exact IH|].
    apply blames_never. intros s. unfold fail. simpl. discriminate.
Qed.

Lemma blames_generateBase_loop (n : nat) :
  forall i, blames reader (generateBase_loop reader n i).
Proof.
  induction n as [|n IH]; intros i.
  - apply blames_never. intros s. simpl. discriminate.
  - cbn [generateBase_loop].
    apply blames_bind; [apply blames_secureRandomChar|]. intros b.
    apply blames_bind; [apply blames_store|]. intros _. apply IH.
Qed.

Lemma blames_Generate : blames reader (Generate reader g).
Proof.
  unfold Generate.
  apply blames_bind.
  { unfold generateBase. apply blames_bind.
    - apply blames_never. intros s. unfold alloc. simpl. discriminate.
    - intros _. apply blames_generateBase_loop. }
  intros _. apply blames_bind.
  { apply blames_seek_each. intros c. apply blames_never. intros s. simpl.
    discriminate. }
  intros _. apply blames_bind.
  { apply blames_seek_each. intros c. apply blames_secureRandomChar. }
  intros _. apply blames_bind.
  { apply blames_seek_each. intros c. apply blames_secureRandomChar. }
  intros _. apply blames_never. intros s. unfold current. simpl. discriminate.
Qed.

End Blame.

(** Whatever the configuration, when [Generate] fails with an error of the
    entropy source, the answer it took last from the source was a failure;
    a source that never fails never causes that error. *)
Theorem Generate_entropy_error_from_source
  (reader : Z -> option Z) (g : Generator) :
  fst (Generate reader g initial) = Err EntropySourceError ->
  reader ((snd (Generate reader g initial)).(cursor) - 1) = None.
Proof. apply blames_Generate. Qed.

Lemma Generate_entropy_error_from_source_witness :
  fst (Generate (tape_failing_at 3) readme_example initial)
  = Err EntropySourceError /\
  tape_failing_at 3
    ((snd (Generate (tape_failing_at 3) readme_example initial)).(cursor) - 1)
  = None.
Proof.
  split; [vm_compute; reflexivity|].
  apply (Generate_entropy_error_from_source (tape_failing_at 3) readme_example).
  vm_compute. reflexivity.
Defined.

(** ** Only as many substitutions as positions *)

Lemma Generate_ok_fits (reader : Z -> option Z) (g : Generator) (b : list byte) :
  0 <= g.(length) -> 0 <= g.(uppercaseCount) -> 0 <= g.(digitCount) ->
  0 <= g.(specialCount) ->
  fst (Generate reader g initial) = Ok b ->
  g.(uppercaseCount) + g.(digitCount) + g.(specialCount) <= g.(length).
Proof.
  intros Hl Hu Hd Hs. unfold Generate. unfold bind at 1.
  pose proof (generateBase_spec reader g initial Hl) as H1.
  destruct (generateBase reader g initial) as [[u1|e|] s1];
    [|simpl; discriminate|simpl; discriminate].
  destruct H1 as [Hlen Hbase].
  unfold bind at 1. unfold applyUppercase, seekNonBaseLetterAndApply.
  pose proof (seek_each_spec reader g Uppercase ltac:(discriminate) _
                (fun c Hc => draws_toUpper c Hc)
                (Z.to_nat (uppercaseCount g)) s1) as H2.
  rewrite Z2Nat.id in H2 by lia.
  match type of H2 with match ?X with _ => _ end =>
    destruct X as [[u2|e|] s2] end;
    [|simpl; discriminate|simpl; discriminate].
  destruct H2 as (_ & Hc2 & _). specialize (Hc2 Lowercase).
  unfold bind at 1. unfold applyDigits, seekNonBaseLetterAndApply.
  pose proof (seek_each_spec reader g Digit ltac:(discriminate)
                (fun _ => secureRandomChar reader digitCharset)
                (fun c _ => draws_class reader Digit)
                (Z.to_nat (digitCount g)) s2) as H3.
  rewrite Z2Nat.id in H3 by lia.
  match type of H3 with match ?X with _ => _ end =>
    destruct X as [[u3|e|] s3] end;
    [|simpl; discriminate|simpl; discriminate].
  destruct H3 as (_ & Hc3 & _). specialize (Hc3 Lowercase).
  unfold bind at 1. unfold applySpecial, seekNonBaseLetterAndApply.
  pose proof (seek_each_spec reader g Special ltac:(discriminate)
                (fun _ => secureRandomChar reader specialCharset)
                (fun c _ => draws_class reader Special)
                (Z.to_nat (specialCount g)) s3) as H4.
  rewrite Z2Nat.id in H4 by lia.
  match type of H4 with match ?X with _ => _ end =>
    destruct X as [[u4|e|] s4] end;
    [|simpl; discriminate|simpl; discriminate].
  destruct H4 as (_ & Hc4 & _). specialize (Hc4 Lowercase).
  intros _.
  rewrite Hc3, Hc2, (count_all _ _ Hbase), Hlen in Hc4.
  unfold delta in Hc4. simpl in Hc4.
  pose proof (count_nonneg (in_class Lowercase) (buf s4)). lia.
Qed.

(** Whatever the source answers, [Generate] returns a password only for
    counts that add up, without wrapping, to at most the length. *)
Theorem Generate_only_when_counts_fit
  (reader : Z -> option Z) (g : Generator) (b : list byte) :
  is_uint32 g.(length) -> is_uint32 g.(uppercaseCount) ->
  is_uint32 g.(digitCount) -> is_uint32 g.(specialCount) ->
  fst (Generate reader g initial) = Ok b ->
  g.(uppercaseCount) + g.(digitCount) + g.(specialCount) <= g.(length).
Proof.
  unfold is_uint32. intros Hl Hu Hd Hs.
  apply Generate_ok_fits; lia.
Qed.

Lemma Generate_only_when_counts_fit_witness :
  (is_uint32 14 /\ is_uint32 2 /\ is_uint32 1) /\
  fst (Generate halving_tape readme_example initial)
  = Ok (list_byte_of_string "ZN8>rtwvcbqkdc") /\
  2 + 1 + 1 <= 14.
Proof.
  split; [unfold is_uint32; lia|].
  assert (E : fst (Generate halving_tape readme_example initial)
              = Ok (list_byte_of_string "ZN8>rtwvcbqkdc"))
    by (vm_compute; reflexivity).
  split; [exact E|].
  apply (Generate_only_when_counts_fit halving_tape readme_example
           (list_byte_of_string "ZN8>rtwvcbqkdc"));
    [unfold is_uint32; simpl; lia ..|exact E].
Defined.

Lemma accepted_run
  (reader : Z -> option Z) (l u d s : Z) (g : Generator) (b : list byte) :
  is_uint32 l -> is_uint32 u -> is_uint32 d -> is_uint32 s ->
  NewGenerator l u d s = Ok g ->
  fst (Generate reader g initial) = Ok b ->
  valid g /\ len b = l /\
  count (in_class Uppercase) b = u /\ count (in_class Digit) b = d /\
  count (in_class Special) b = s /\
  count (in_class Lowercase) b = l - (u + d + s).
Proof.
  unfold is_uint32. intros Hl Hu Hd Hs Hnew Hrun.
  apply NewGenerator_accepts in Hnew. destruct Hnew as (-> & H128 & _).
  assert (Hfit : u + d + s <= l)
    by (exact (Generate_ok_fits reader (mkGenerator l u d s) b
                 ltac:(simpl; lia) ltac:(simpl; lia) ltac:(simpl; lia)
                 ltac:(simpl; lia) Hrun)).
  assert (Hv : valid (mkGenerator l u d s))
    by (unfold valid, is_uint32; simpl; lia).
  split; [exact Hv|].
  pose proof (Generate_spec reader _ Hv) as H.
  destruct (Generate reader (mkGenerator l u d s) initial) as [r s'].
  simpl in Hrun. subst r. simpl in H. tauto.
Qed.

(** A password that [Generate] returns for a generator that [NewGenerator]
    returned comes from a valid configuration, the wrapped sums that
    [NewGenerator] lets through included, and so has the length asked for
    and as many uppercase letters, digits and specials as asked for. *)
Theorem password_after_NewGenerator
  (reader : Z -> option Z) (l u d s : Z) (g : Generator) (b : list byte) :
  is_uint32 l -> is_uint32 u -> is_uint32 d -> is_uint32 s ->
  NewGenerator l u d s = Ok g ->
  fst (Generate reader g initial) = Ok b ->
  valid g /\ len b = l /\
  count (in_class Uppercase) b = u /\ count (in_class Digit) b = d /\
  count (in_class Special) b = s /\
  count (in_class Lowercase) b = l - (u + d + s).
Proof. apply accepted_run. Qed.

Lemma password_after_NewGenerator_witness :
  (is_uint32 14 /\ is_uint32 2 /\ is_uint32 1) /\
  valid readme_example /\
  len (list_byte_of_string "ZN8>rtwvcbqkdc") = 14 /\
  count (in_class Uppercase) (list_byte_of_string "ZN8>rtwvcbqkdc") = 2 /\
  count (in_class Digit) (list_byte_of_string "ZN8>rtwvcbqkdc") = 1 /\
  count (in_class Special) (list_byte_of_string "ZN8>rtwvcbqkdc") = 1 /\
  count (in_class Lowercase) (list_byte_of_string "ZN8>rtwvcbqkdc")
  = 14 - (2 + 1 + 1).
Proof.
  split; [unfold is_uint32; lia|].
  apply (password_after_NewGenerator halving_tape 14 2 1 1 readme_example
           (list_byte_of_string "ZN8>rtwvcbqkdc"));
    [unfold is_uint32; lia ..|reflexivity|vm_compute; reflexivity].
Defined.

(** ** The empty password with counts *)

Lemma generateBase_empty (reader : Z -> option Z) (g : Generator) (s : state) :
  g.(length) = 0 ->
  generateBase reader g s = (Ok tt, mkState s.(cursor) [] ([] :: s.(hist))).
Proof. intros H. unfold generateBase, bind, alloc. rewrite H. reflexivity. Qed.

Lemma seek_each_empty_range (reader : Z -> option Z) (g : Generator)
  (applyFn : byte -> M byte) (n : nat) (s : state) :
  g.(length) <= 0 -> n <> O ->
  fst (seek_each reader g applyFn n s) = Panic.
Proof.
  intros Hl Hn. destruct n as [|n]; [contradiction|].
  rewrite seek_each_unfold. unfold bind.
  destruct (Z.to_nat maxAttempts) as [|fuel] eqn:E.
  - pose proof maxAttempts_nat as H. rewrite E in H. discriminate H.
  - cbn [seek_attempts]. unfold bind, rand_Int.
    destruct (Z.leb_spec (length g) 0); [reflexivity|lia].
Qed.

Lemma Generate_empty_range
  (reader : Z -> option Z) (u d s : Z) (g : Generator) :
  is_uint32 u -> is_uint32 d -> is_uint32 s -> 0 < u + d + s ->
  NewGenerator 0 u d s = Ok g ->
  fst (Generate reader g initial) = Panic.
Proof.
  unfold is_uint32. intros Hu Hd Hs Hpos Hnew.
  apply NewGenerator_accepts in Hnew. destruct Hnew as (-> & _ & _).
  unfold Generate. unfold bind at 1.
  rewrite generateBase_empty by reflexivity.
  unfold bind at 1. unfold applyUppercase, seekNonBaseLetterAndApply.
  cbn [uppercaseCount].
  destruct (Z.to_nat u) as [|nu] eqn:Eu.
  2:{ rewrite <- Eu.
      match goal with |- fst (match ?X with _ => _ end) = _ =>
        pose proof (seek_each_empty_range reader (mkGenerator 0 u d s) _
                      (Z.to_nat u) _ ltac:(simpl; lia) ltac:(lia)
                    : fst X = Panic) as E;
        destruct X as [[?|?|] ?]; simpl in E; try discriminate E
      end. reflexivity. }
  cbn [seek_each ret].
  unfold bind at 1. unfold applyDigits, seekNonBaseLetterAndApply.
  cbn [digitCount].
  destruct (Z.to_nat d) as [|nd] eqn:Ed.
  2:{ rewrite <- Ed.
      match goal with |- fst (match ?X with _ => _ end) = _ =>
        pose proof (seek_each_empty_range reader (mkGenerator 0 u d s) _
                      (Z.to_nat d) _ ltac:(simpl; lia) ltac:(lia)
                    : fst X = Panic) as E;
        destruct X as [[?|?|] ?]; simpl in E; try discriminate E
      end. reflexivity. }
  cbn [seek_each ret].
  unfold bind at 1. unfold applySpecial, seekNonBaseLetterAndApply.
  cbn [specialCount].
  assert (Hs0 : Z.to_nat s <> O) by lia.
  match goal with |- fst (match ?X with _ => _ end) = _ =>
    pose proof (seek_each_empty_range reader (mkGenerator 0 u d s) _
                  (Z.to_nat s) _ ltac:(simpl; lia) Hs0
                : fst X = Panic) as E;
    destruct X as [[?|?|] ?]; simpl in E; try discriminate E
  end. reflexivity.
Qed.

(** A generator of length 0 that [NewGenerator] returned with a count above
    0, as happens when the sum of the counts wraps to 0, makes [Generate]
    panic on its first draw of a position, whatever the source. *)
Theorem Generate_panics_on_empty_range
  (reader : Z -> option Z) (u d s : Z) (g : Generator) :
  is_uint32 u -> is_uint32 d -> is_uint32 s -> 0 < u + d + s ->
  NewGenerator 0 u d s = Ok g ->
  fst (Generate reader g initial) = Panic.
Proof. apply Generate_empty_range. Qed.

Lemma Generate_panics_on_empty_range_witness :
  (is_uint32 4294967295 /\ is_uint32 1 /\ is_uint32 0 /\
   0 < 4294967295 + 1 + 0 /\
   NewGenerator 0 4294967295 1 0 = Ok wrapped_empty) /\
  fst (Generate (constant_tape 0) wrapped_empty initial) = Panic.
Proof.
  split; [unfold is_uint32; repeat split; try lia; reflexivity|].
  apply (Generate_panics_on_empty_range (constant_tape 0) 4294967295 1 0
           wrapped_empty);
    [unfold is_uint32; lia ..|lia|reflexivity].
Defined.

(** ** The character draw on any charset *)

(** [secureRandomChar] on a charset whose length is no multiple of 256
    returns a member of the charset or fails on the entropy source, and
    never panics; on a charset whose length is a multiple of 256, the empty
    charset first, it never returns a character: it divides by zero once
    the source has answered. *)
Theorem secureRandomChar_outcome
  (reader : Z -> option Z) (charset : list byte) (s : state) :
  match fst (secureRandomChar reader charset s) with
  | Ok c => wrap8 (len charset) <> 0 /\ In c charset
  | Err e => e = EntropySourceError
  | Panic => wrap8 (len charset) = 0
  end.
Proof.
  pose proof (draws_secureRandomChar reader charset s) as Hd.
  destruct (Z.eq_dec (wrap8 (len charset)) 0) as [E|E].
  - unfold secureRandomChar, bind in *.
    destruct (secureRandomByte reader s) as [[b|e|] s1]; simpl in *.
    + unfold lift in *. rewrite (charsetAt_Panic charset b E). exact E.
    + tauto.
    + exact E.
  - pose proof (quiet_secureRandomChar reader charset E s) as Hq.
    destruct (secureRandomChar reader charset s) as [[c|e|] s1]; simpl in *.
    + tauto.
    + tauto.
    + contradiction.
Qed.

(** ** What a pass changes *)

Lemma Forall2_changed_refl (P : byte -> byte -> Prop) (b : list byte) :
  Forall2 (changed_to P) b b.
Proof. induction b; constructor; auto. left. reflexivity. Qed.

Lemma Forall2_changed_update (P : byte -> byte -> Prop)
  (B b : list byte) (i : nat) (c c' : byte) :
  (forall x y, in_class Lowercase x = true -> P x y ->
               in_class Lowercase y = false) ->
  Forall2 (changed_to P) B b ->
  nth_error b i = Some c -> in_class Lowercase c = true -> P c c' ->
  Forall2 (changed_to P) B (update b i c').
Proof.
  intros HP H. revert i.
  induction H as [|x y B b Hxy H IH]; intros [|i] Hi Hc Hcc'; simpl in *;
    try discriminate.
  - inversion Hi; subst y. constructor; [|exact H].
    destruct Hxy as [->|[Hx Hp]].
    + right. split; assumption.
    + rewrite (HP x c Hx Hp) in Hc. discriminate.
  - constructor; [exact Hxy|]. apply IH; assumption.
Qed.

Section Changes.

Variable reader : Z -> option Z.
Variable g : Generator.
Variable P : byte -> byte -> Prop.
Hypothesis HP :
  forall x y, in_class Lowercase x = true -> P x y ->
              in_class Lowercase y = false.
Variable applyFn : byte -> M byte.
Hypothesis Happly :
  forall c, in_class Lowercase c = true -> draws (applyFn c) (P c).

Lemma seek_attempts_changes (B : list byte) :
  forall (fuel : nat) (s : state),
    Forall2 (changed_to P) B s.(buf) ->
    Forall2 (changed_to P) B
      (snd (seek_attempts reader g applyFn fuel s)).(buf).
Proof.
  induction fuel as [|fuel IH]; intros s HB.
  - simpl. exact HB.
  - cbn [seek_attempts]. unfold bind at 1. unfold rand_Int.
    destruct (length g <=? 0); [exact HB|].
    destruct (reader (cursor s)) as [v|]; [|exact HB].
    unfold bind at 1. unfold load. cbn [buf advance cursor hist].
    destruct ((0 <=? v mod length g) && (v mod length g <? len (buf s)))
      eqn:Hin; [|exact HB].
    destruct (nth_error (buf s) (Z.to_nat (v mod length g))) as [c|] eqn:Ec;
      [|exact HB].
    rewrite Contains_letterCharset.
    destruct (in_class Lowercase c) eqn:Hc; cbn [negb].
    + unfold bind at 1. pose proof (Happly c Hc (advance s)) as Ha.
      destruct (applyFn c (advance s)) as [[c'|e|] s1].
      * destruct Ha as [HQ [Hb Hh]]. cbn [buf advance hist] in Hb, Hh.
        unfold bind, store, ret. rewrite Hb, Hin. cbn [snd buf].
        eapply Forall2_changed_update; eauto.
      * destruct Ha as [_ [Hb _]]. cbn [snd buf advance] in *.
        rewrite Hb. exact HB.
      * destruct Ha as [Hb _]. cbn [snd buf advance] in *.
        rewrite Hb. exact HB.
    + apply IH. exact HB.
Qed.

Lemma seek_each_changes (B : list byte) :
  forall (n : nat) (s : state),
    Forall2 (changed_to P) B s.(buf) ->
    Forall2 (changed_to P) B (snd (seek_each reader g applyFn n s)).(buf).
Proof.
  induction n as [|n IH]; intros s HB.
  - simpl. exact HB.
  - rewrite seek_each_unfold. unfold bind.
    pose proof (seek_attempts_changes B (Z.to_nat maxAttempts) s HB) as H1.
    destruct (seek_attempts reader g applyFn (Z.to_nat maxAttempts) s)
      as [[[|]|e|] s1]; cbn [snd] in *.
    + apply IH. exact H1.
    + unfold fail. exact H1.
    + exact H1.
    + exact H1.
Qed.

End Changes.

(** Whatever they come to, the three passes leave every byte that is no
    base letter as it is, and put in the place of a base letter: the pass
    of uppercase letters that same letter in upper case, the pass of
    digits a digit, the pass of specials a special. *)
Theorem passes_change_base_letters_only
  (reader : Z -> option Z) (g : Generator) (s : state) :
  Forall2 (changed_to (fun x y => y = toUpperByte x))
    s.(buf) (snd (applyUppercase reader g s)).(buf) /\
  Forall2 (changed_to (fun _ y => in_class Digit y = true))
    s.(buf) (snd (applyDigits reader g s)).(buf) /\
  Forall2 (changed_to (fun _ y => in_class Special y = true))
    s.(buf) (snd (applySpecial reader g s)).(buf).
Proof.
  split; [|split].
  - unfold applyUppercase, seekNonBaseLetterAndApply.
    apply seek_each_changes.
    + intros x y Hx ->.
      rewrite (in_class_unique (toUpperByte x) Lowercase Uppercase
                 (toUpperByte_class x Hx)). reflexivity.
    + intros c Hc. apply draws_ret. reflexivity.
    + apply Forall2_changed_refl.
  - unfold applyDigits, seekNonBaseLetterAndApply.
    apply seek_each_changes.
    + intros x y _ Hy. rewrite (in_class_unique y Lowercase Digit Hy).
      reflexivity.
    + intros c _. apply (draws_class reader Digit).
    + apply Forall2_changed_refl.
  - unfold applySpecial, seekNonBaseLetterAndApply.
    apply seek_each_changes.
    + intros x y _ Hy. rewrite (in_class_unique y Lowercase Special Hy).
      reflexivity.
    + intros c _. apply (draws_class reader Special).
    + apply Forall2_changed_refl.
Qed.

(** ** The digest byte *)











(** ** Powers of two *)

Lemma land_pred_pow2 (k : Z) : 0 <= k -> Z.land (2 ^ k) (2 ^ k - 1) = 0.
Proof.
  intros Hk. replace (2 ^ k - 1) with (Z.ones k)
    by (rewrite Z.ones_equiv; reflexivity).
  rewrite Z.land_ones by lia. apply Z_mod_same_full.
Qed.

Lemma land_pred_not_pow2 (v : Z) :
  0 < v -> Z.land v (v - 1) = 0 -> v = 2 ^ Z.log2 v.
Proof.
  intros Hv Hland.
  pose proof (Z.log2_spec v Hv) as [Hlo Hhi].
  pose proof (Z.log2_nonneg v) as Hk.
  destruct (Z.eq_dec v (2 ^ Z.log2 v)) as [E|Hne]; [exact E|exfalso].
  assert (Hbit : Z.testbit v (Z.log2 v) = true) by (apply Z.bit_log2; lia).
  assert (Hlog : Z.log2 (v - 1) = Z.log2 v).
  { apply Z.log2_unique; [lia|]. unfold Z.succ in Hhi. lia. }
  assert (Hbit' : Z.testbit (v - 1) (Z.log2 v) = true).
  { rewrite <- Hlog. apply Z.bit_log2.
    assert (0 < 2 ^ Z.log2 v) by (apply Z.pow_pos_nonneg; lia). lia. }
  assert (Hb : Z.testbit (Z.land v (v - 1)) (Z.log2 v) = true)
    by (rewrite Z.land_spec, Hbit, Hbit'; reflexivity).
  rewrite Hland, Z.bits_0 in Hb. discriminate.
Qed.

(** At [uint32], [isPowerOfTwo] holds exactly of the 32 powers of two
    [2^0 .. 2^31]; 0 is none. *)
Theorem isPowerOfTwo_iff (v : Z) :
  is_uint32 v ->
  (isPowerOfTwo v = true <-> exists k, 0 <= k < 32 /\ v = 2 ^ k).
Proof.
  unfold is_uint32, isPowerOfTwo. intros Hv. split.
  - intros H. apply andb_true_iff in H. destruct H as [Hpos Hland].
    apply Z.ltb_lt in Hpos. apply Z.eqb_eq in Hland.
    rewrite wrap32_small in Hland by lia.
    pose proof (land_pred_not_pow2 v Hpos Hland) as E.
    exists (Z.log2 v). split; [|exact E].
    split; [apply Z.log2_nonneg|]. apply Z.log2_lt_pow2; lia.
  - intros (k & Hk & ->).
    assert (0 < 2 ^ k) by (apply Z.pow_pos_nonneg; lia).
    apply andb_true_iff. split; [apply Z.ltb_lt; lia|].
    rewrite wrap32_small by lia. apply Z.eqb_eq. apply land_pred_pow2. lia.
Qed.

Lemma isPowerOfTwo_iff_witness :
  is_uint32 16 /\
  (isPowerOfTwo 16 = true <-> exists k, 0 <= k < 32 /\ 16 = 2 ^ k).
Proof.
  split; [unfold is_uint32; lia|].
  apply (isPowerOfTwo_iff 16). unfold is_uint32. lia.
Defined.

(** ** The rating of a valid configuration *)

Lemma ratings_agree_all : ratings_agree 897 641 = true.
Proof. vm_compute. reflexivity. Qed.

Lemma In_range (n : nat) (x : Z) :
  0 <= x < Z.of_nat n -> In x (map Z.of_nat (seq 0 n)).
Proof.
  intros Hx. apply in_map_iff. exists (Z.to_nat x). split; [lia|].
  apply in_seq. lia.
Qed.

Lemma ratings_agree_spec (a b : nat) :
  ratings_agree a b = true ->
  forall x y, 0 <= x < Z.of_nat a -> 0 <= y < Z.of_nat b ->
    getRatingString (entropyAvg x y) = rating_of_sum (x + y).
Proof.
  unfold ratings_agree. cbv zeta. intros H x y Hx Hy.
  rewrite forallb_forall in H.
  specialize (H x (In_range a x Hx)).
  rewrite forallb_forall in H.
  specialize (H y (In_range b y Hy)).
  apply String.eqb_eq. exact H.
Qed.

Lemma rating_agrees (x y : Z) :
  0 <= x <= 896 -> 0 <= y <= 640 ->
  getRatingString (entropyAvg x y) = rating_of_sum (x + y).
Proof.
  intros Hx Hy.
  apply (ratings_agree_spec 897 641 ratings_agree_all x y); lia.
Qed.

Lemma entropy_upper_bounds (g : Generator) :
  valid g ->
  0 <= EntropyMax g <= 896 /\
  exists m, EntropyMin g = Ok m /\ 0 <= m <= 640.
Proof.
  unfold valid, is_uint32. intros (Hl & Hu & Hd & Hs & H128 & Hsum).
  pose proof (pool_range g) as Hp.
  split.
  - rewrite EntropyMax_formula by (unfold is_uint32; lia).
    assert (Hpow : 0 < pool g ^ length g <= 2 ^ (7 * length g))
      by (apply pow_below; lia).
    pose proof (BitLen_nonneg (pool g ^ length g - 1)).
    assert (BitLen (pool g ^ length g - 1) <= 7 * length g)
      by (apply BitLen_bound; lia).
    lia.
  - exists (BitLen (minCombinations g)).
    split; [apply EntropyMin_formula; unfold is_uint32; lia|].
    pose proof (minCombinations_range g ltac:(lia) ltac:(lia) ltac:(lia) Hsum)
      as Hr.
    pose proof (BitLen_nonneg (minCombinations g)).
    assert (BitLen (minCombinations g) <= 5 * length g)
      by (apply BitLen_bound; lia).
    lia.
Qed.

(** On a valid configuration the rating that [main] prints, computed in
    [float64] from the average of the two estimates, is decided by their
    sum in whole bits: Very Poor up to 64, Poor up to 96, Weak up to 144,
    Good up to 192, Excellent up to 240, Overkill above. *)
Theorem rating_of_valid_configuration (g : Generator) (m : Z) :
  valid g -> EntropyMin g = Ok m ->
  getRatingString (entropyAvg (EntropyMax g) m)
  = rating_of_sum (m + EntropyMax g).
Proof.
  intros Hv Hm. destruct (entropy_upper_bounds g Hv) as [Hx (m' & Hm' & Hy)].
  rewrite Hm in Hm'. inversion Hm'; subst m'.
  rewrite (Z.add_comm m). apply rating_agrees; assumption.
Qed.

Lemma rating_of_valid_configuration_witness :
  (valid readme_example /\ EntropyMin readme_example = Ok 64) /\
  getRatingString (entropyAvg (EntropyMax readme_example) 64)
  = rating_of_sum (64 + EntropyMax readme_example).
Proof.
  split; [split; [exact valid_readme_example|vm_compute; reflexivity]|].
  apply (rating_of_valid_configuration readme_example 64).
  - exact valid_readme_example.
  - vm_compute. reflexivity.
Defined.

(** ** Reading a number *)

Lemma ReadBytes_line (line rest : list byte) :
  forallb (fun c => negb (Byte.eqb c x0a)) line = true ->
  ReadBytes (line ++ x0a :: rest) = Some (line ++ [x0a], rest).
Proof.
  induction line as [|c line IH]; simpl; intros H; [reflexivity|].
  apply andb_true_iff in H. destruct H as [Hc Hl].
  apply negb_true_iff in Hc. rewrite Hc, (IH Hl). reflexivity.
Qed.

Lemma ReadBytes_inv (stdin b rest : list byte) :
  ReadBytes stdin = Some (b, rest) ->
  exists line,
    b = line ++ [x0a] /\ stdin = line ++ x0a :: rest /\
    forallb (fun c => negb (Byte.eqb c x0a)) line = true.
Proof.
  revert b rest. induction stdin as [|c stdin IH]; simpl; intros b rest H;
    [discriminate|].
  destruct (Byte.eqb c x0a) eqn:Ec.
  - inversion H; subst. apply Byte.byte_dec_bl in Ec. subst c.
    exists []. repeat split.
  - destruct (ReadBytes stdin) as [[line0 rest0]|]; [|discriminate].
    inversion H; subst. destruct (IH line0 rest eq_refl) as (line & -> & -> & Hl).
    exists (c :: line). simpl. rewrite Ec, Hl. repeat split.
Qed.

Lemma ReplaceAll_line (line : list byte) :
  forallb (fun c => negb (Byte.eqb c x0a)) line = true ->
  ReplaceAll_newline (line ++ [x0a]) = line.
Proof.
  unfold ReplaceAll_newline. induction line as [|c line IH]; simpl; intros H;
    [reflexivity|].
  apply andb_true_iff in H. destruct H as [Hc Hl].
  rewrite Hc, (IH Hl). reflexivity.
Qed.

Lemma is_digit_range (c : byte) :
  is_digit c = true -> 0 <= Z_of_byte c - 48 <= 9.
Proof.
  unfold is_digit. intros H. apply andb_true_iff in H. destruct H as [H1 H2].
  apply Z.leb_le in H1. apply Z.leb_le in H2. lia.
Qed.

Lemma is_digit_not_newline (c : byte) :
  is_digit c = true -> negb (Byte.eqb c x0a) = true.
Proof. destruct c; vm_compute; intros H; (discriminate H || reflexivity). Qed.

Lemma digits_no_newline (ds : list byte) :
  forallb is_digit ds = true ->
  forallb (fun c => negb (Byte.eqb c x0a)) ds = true.
Proof.
  induction ds as [|c ds IH]; simpl; intros H; [reflexivity|].
  apply andb_true_iff in H. destruct H as [Hc Hl].
  rewrite (is_digit_not_newline c Hc), (IH Hl). reflexivity.
Qed.

(** The value only grows along the digits. *)
Lemma fold_digits_grows (ds : list byte) :
  forall n, 0 <= n -> forallb is_digit ds = true ->
    n <= fold_left (fun acc c => acc * 10 + (Z_of_byte c - 48)) ds n.
Proof.
  induction ds as [|c ds IH]; simpl; intros n Hn H; [lia|].
  apply andb_true_iff in H. destruct H as [Hc Hl].
  pose proof (is_digit_range c Hc).
  specialize (IH (n * 10 + (Z_of_byte c - 48)) ltac:(lia) Hl). lia.
Qed.

Lemma ParseUint_loop_complete (ds : list byte) :
  forall n, 0 <= n -> forallb is_digit ds = true ->
    fold_left (fun acc c => acc * 10 + (Z_of_byte c - 48)) ds n <= 2 ^ 32 - 1 ->
    ParseUint_loop (2 ^ 32 - 1) ds n
    = Some (fold_left (fun acc c => acc * 10 + (Z_of_byte c - 48)) ds n).
Proof.
  induction ds as [|c ds IH]; simpl; intros n Hn H Hv; [reflexivity|].
  apply andb_true_iff in H. destruct H as [Hc Hl]. rewrite Hc.
  pose proof (is_digit_range c Hc) as Hd.
  pose proof (fold_digits_grows ds (n * 10 + (Z_of_byte c - 48))
                ltac:(lia) Hl) as Hg.
  replace ((2 ^ 64 - 1) / 10 + 1) with 1844674407370955162 by reflexivity.
  change (2 ^ 32 - 1) with 4294967295 in *.
  destruct (Z.leb_spec 1844674407370955162 n); [lia|].
  rewrite (wrap64_small (n * 10))
    by (change (2 ^ 64) with 18446744073709551616; lia).
  rewrite (wrap64_small (n * 10 + (Z_of_byte c - 48)))
    by (change (2 ^ 64) with 18446744073709551616; lia).
  destruct (Z.ltb_spec (n * 10 + (Z_of_byte c - 48)) (n * 10)); [lia|].
  destruct (Z.ltb_spec 4294967295 (n * 10 + (Z_of_byte c - 48))); [lia|].
  simpl. apply IH; [lia|exact Hl|exact Hv].
Qed.

Lemma ParseUint_loop_sound (s : list byte) :
  forall n v, 0 <= n <= 2 ^ 32 - 1 ->
    ParseUint_loop (2 ^ 32 - 1) s n = Some v ->
    forallb is_digit s = true /\
    v = fold_left (fun acc c => acc * 10 + (Z_of_byte c - 48)) s n /\
    0 <= v <= 2 ^ 32 - 1.
Proof.
  induction s as [|c s IH]; simpl; intros n v Hn H.
  - inversion H; subst. repeat split; lia.
  - destruct (is_digit c) eqn:Hc; [|discriminate].
    pose proof (is_digit_range c Hc) as Hd.
    replace ((2 ^ 64 - 1) / 10 + 1) with 1844674407370955162 in H
      by reflexivity.
    change (2 ^ 32 - 1) with 4294967295 in *.
    destruct (Z.leb_spec 1844674407370955162 n); [lia|].
    rewrite (wrap64_small (n * 10)) in H
      by (change (2 ^ 64) with 18446744073709551616; lia).
    rewrite (wrap64_small (n * 10 + (Z_of_byte c - 48))) in H
      by (change (2 ^ 64) with 18446744073709551616; lia).
    destruct (Z.ltb_spec (n * 10 + (Z_of_byte c - 48)) (n * 10));
      [discriminate|].
    destruct (Z.ltb_spec 4294967295 (n * 10 + (Z_of_byte c - 48)));
      [discriminate|].
    simpl in H.
    destruct (IH (n * 10 + (Z_of_byte c - 48)) v ltac:(lia) H)
      as (Hl & Hv & Hr).
    repeat split; auto; lia.
Qed.

(** [askUint32] reads a line of one or more decimal digits whose value is
    below [2^32], leading zeros allowed, as that value, and leaves the
    input after the newline. *)
Theorem askUint32_reads_decimal (ds rest : list byte) :
  ds <> [] -> forallb is_digit ds = true -> digits_value ds < 2 ^ 32 ->
  askUint32 (ds ++ x0a :: rest) = Answer (digits_value ds) rest.
Proof.
  intros Hne Hd Hv. unfold askUint32.
  pose proof (digits_no_newline ds Hd) as Hnl.
  rewrite (ReadBytes_line ds rest Hnl), (ReplaceAll_line ds Hnl).
  unfold ParseUint. destruct ds as [|c ds]; [contradiction|].
  unfold digits_value in *.
  rewrite ParseUint_loop_complete by (try lia; exact Hd).
  pose proof (fold_digits_grows (c :: ds) 0 ltac:(lia) Hd).
  rewrite wrap32_small by lia. reflexivity.
Qed.

Lemma askUint32_reads_decimal_witness :
  (list_byte_of_string "014" <> [] /\
   forallb is_digit (list_byte_of_string "014") = true /\
   digits_value (list_byte_of_string "014") < 2 ^ 32) /\
  askUint32 (list_byte_of_string "014" ++ x0a :: list_byte_of_string "2")
  = Answer (digits_value (list_byte_of_string "014")) (list_byte_of_string "2").
Proof.
  split; [split; [discriminate|split; vm_compute; reflexivity]|].
  apply (askUint32_reads_decimal (list_byte_of_string "014")
           (list_byte_of_string "2"));
    [discriminate|reflexivity|vm_compute; reflexivity].
Defined.

Lemma askUint32_inv (stdin rest : list byte) (v : Z) :
  askUint32 stdin = Answer v rest ->
  exists ds,
    stdin = ds ++ x0a :: rest /\ ds <> [] /\ forallb is_digit ds = true /\
    v = digits_value ds /\ is_uint32 v.
Proof.
  unfold askUint32. intros H.
  destruct (ReadBytes stdin) as [[b rest0]|] eqn:Er; [|discriminate].
  destruct (ReadBytes_inv stdin b rest0 Er) as (line & -> & -> & Hnl).
  rewrite (ReplaceAll_line line Hnl) in H.
  destruct (ParseUint line) as [v0|] eqn:Ep; [|discriminate].
  inversion H; subst. clear H.
  unfold ParseUint in Ep. destruct line as [|c line]; [discriminate|].
  destruct (ParseUint_loop_sound (c :: line) 0 v0 ltac:(lia) Ep)
    as (Hd & Hv & Hr).
  exists (c :: line). unfold is_uint32, digits_value.
  rewrite wrap32_small by lia.
  repeat split; auto; try discriminate; lia.
Qed.

(** [askUint32] answers only to a line of one or more decimal digits that
    ends in a newline: the answer is the value of the digits, below
    [2^32], and the input left is what follows the newline.  A sign, a
    space, a carriage return, an empty line, a value of [2^32] or more, or
    an input that ends without a newline give an error. *)
Theorem askUint32_answer (stdin rest : list byte) (v : Z) :
  askUint32 stdin = Answer v rest ->
  exists ds,
    stdin = ds ++ x0a :: rest /\ ds <> [] /\ forallb is_digit ds = true /\
    v = digits_value ds /\ is_uint32 v.
Proof. apply askUint32_inv. Qed.

Lemma askUint32_answer_witness :
  askUint32 (list_byte_of_string "014" ++ x0a :: list_byte_of_string "2")
  = Answer 14 (list_byte_of_string "2") /\
  exists ds,
    list_byte_of_string "014" ++ x0a :: list_byte_of_string "2"
    = ds ++ x0a :: list_byte_of_string "2" /\
    ds <> [] /\ forallb is_digit ds = true /\
    14 = digits_value ds /\ is_uint32 14.
Proof.
  split; [reflexivity|].
  apply (askUint32_answer
           (list_byte_of_string "014" ++ x0a :: list_byte_of_string "2")
           (list_byte_of_string "2") 14).
  reflexivity.
Defined.

(** ** Yes or no *)

Lemma EqualFold_y (c : byte) :
  EqualFold (string_of_byte c) (list_byte_of_string "y")
  = Byte.eqb c "y" || Byte.eqb c "Y".
Proof. destruct c; reflexivity. Qed.

Lemma ReadBytes_None (stdin : list byte) :
  ReadBytes stdin = None ->
  forallb (fun c => negb (Byte.eqb c x0a)) stdin = true.
Proof.
  induction stdin as [|c stdin IH]; simpl; intros H; [reflexivity|].
  destruct (Byte.eqb c x0a); [discriminate|].
  destruct (ReadBytes stdin) as [[line rest]|]; [discriminate|].
  simpl. apply IH. reflexivity.
Qed.

(** [askYesNo] answers to a line that ends in a newline, and by its first
    byte alone: yes when that byte is y or Y, no otherwise, an empty line
    included; it fails when the input ends without a newline and never
    indexes an empty line. *)
Theorem askYesNo_outcome (stdin : list byte) :
  match askYesNo stdin with
  | Answer yes rest =>
      exists line,
        stdin = line ++ x0a :: rest /\
        forallb (fun c => negb (Byte.eqb c x0a)) line = true /\
        yes = match line with
              | c :: _ => Byte.eqb c "y" || Byte.eqb c "Y"
              | [] => false
              end
  | AskError => forallb (fun c => negb (Byte.eqb c x0a)) stdin = true
  | AskPanic => False
  end.
Proof.
  unfold askYesNo.
  destruct (ReadBytes stdin) as [[b rest]|] eqn:Er;
    [|apply ReadBytes_None; exact Er].
  destruct (ReadBytes_inv stdin b rest Er) as (line & -> & -> & Hnl).
  destruct line as [|c line]; simpl.
  - exists []. repeat split.
  - exists (c :: line). rewrite EqualFold_y. repeat split. exact Hnl.
Qed.

(** ** The loop that asks for the length *)

Lemma askUint32_shorter (stdin rest : list byte) (v : Z) :
  askUint32 stdin = Answer v rest ->
  (List.length rest < List.length stdin)%nat.
Proof.
  intros H. destruct (askUint32_inv stdin rest v H) as (ds & -> & _).
  rewrite length_app. simpl. lia.
Qed.

Lemma askYesNo_shorter (stdin rest : list byte) (yes : bool) :
  askYesNo stdin = Answer yes rest ->
  (List.length rest < List.length stdin)%nat.
Proof.
  unfold askYesNo. intros H.
  destruct (ReadBytes stdin) as [[b rest0]|] eqn:Er; [|discriminate].
  destruct (ReadBytes_inv stdin b rest0 Er) as (line & -> & -> & _).
  destruct line; simpl in H; inversion H; subst;
    rewrite ?length_app; simpl; lia.
Qed.

Lemma askYesNo_no_panic (stdin : list byte) : askYesNo stdin <> AskPanic.
Proof.
  pose proof (askYesNo_outcome stdin) as H. intros E. rewrite E in H. exact H.
Qed.

Lemma askUint32_no_panic (stdin : list byte) : askUint32 stdin <> AskPanic.
Proof.
  unfold askUint32. destruct (ReadBytes stdin) as [[b rest]|]; [|discriminate].
  destruct (ParseUint (ReplaceAll_newline b)); discriminate.
Qed.

Lemma main_length_spec (fuel : nat) :
  forall stdin,
    (List.length stdin < fuel)%nat ->
    match main_length fuel stdin with
    | None => False
    | Some (Answer pwLen rest) =>
        is_uint32 pwLen /\
        exists asked_at mid,
          askUint32 asked_at = Answer pwLen mid /\
          if common_length pwLen then askYesNo mid = Answer false rest
          else rest = mid
    | Some AskError => True
    | Some AskPanic => False
    end.
Proof.
  induction fuel as [|fuel IH]; intros stdin Hf; [lia|].
  cbn [main_length].
  destruct (askUint32 stdin) as [pwLen rest| |] eqn:Ea.
  - pose proof (askUint32_shorter _ _ _ Ea) as Hs.
    destruct (askUint32_inv _ _ _ Ea) as (_ & _ & _ & _ & _ & Hu).
    fold (common_length pwLen).
    destruct (common_length pwLen) eqn:Ec.
    + destruct (askYesNo rest) as [yes rest'| |] eqn:Ey.
      * pose proof (askYesNo_shorter _ _ _ Ey) as Hs'.
        destruct yes; cbn [negb].
        -- apply IH. lia.
        -- split; [exact Hu|]. exists stdin, rest. rewrite Ec. auto.
      * exact I.
      * exact (askYesNo_no_panic rest Ey).
    + split; [exact Hu|]. exists stdin, rest. rewrite Ec. auto.
  - exact I.
  - exact (askUint32_no_panic stdin Ea).
Qed.



(** ** The clean-up *)






(** ** The run of [main] *)

Lemma main_parameters_spec (stdin : list byte) :
  match main_parameters stdin with
  | None => False
  | Some (Answer (l, u, d, s) _) =>
      is_uint32 l /\ is_uint32 u /\ is_uint32 d /\ is_uint32 s
  | Some AskError => True
  | Some AskPanic => False
  end.
Proof.
  unfold main_parameters.
  pose proof (main_length_spec (S (List.length stdin)) stdin ltac:(lia)) as H.
  destruct (main_length (S (List.length stdin)) stdin) as [[l rest| |]|];
    try exact H; try exact I.
  destruct H as [Hl _]. cbn [then_ask].
  destruct (askUint32 rest) as [u rest1| |] eqn:E1; cbn [then_ask];
    [|exact I|exact (askUint32_no_panic rest E1)].
  destruct (askUint32 rest1) as [d rest2| |] eqn:E2; cbn [then_ask];
    [|exact I|exact (askUint32_no_panic rest1 E2)].
  destruct (askUint32 rest2) as [s rest3| |] eqn:E3; cbn [then_ask];
    [|exact I|exact (askUint32_no_panic rest2 E3)].
  destruct (askUint32_inv _ _ _ E1) as (_ & _ & _ & _ & _ & Hu).
  destruct (askUint32_inv _ _ _ E2) as (_ & _ & _ & _ & _ & Hd).
  destruct (askUint32_inv _ _ _ E3) as (_ & _ & _ & _ & _ & Hs).
  auto.
Qed.

Lemma EntropyMin_no_panic (g : Generator) : EntropyMin g <> Panic.
Proof.
  unfold EntropyMin. cbv zeta.
  destruct (length g <?
            wrap32 (wrap32 (uppercaseCount g + digitCount g) + specialCount g));
    discriminate.
Qed.



(** [main] panics when it is given length 0, keeps it, and the counts it
    reads add up to a positive multiple of [2^32]: [NewGenerator] accepts
    them and [Generate] draws a position in an empty range. *)
Theorem main_crashes_on_wrapped_sum
  (reader : Z -> option Z) (stdin rest : list byte) (u d s : Z) :
  main_parameters stdin = Some (Answer (0, u, d, s) rest) ->
  0 < u + d + s -> wrap32 (u + d + s) = 0 ->
  main reader stdin = Some Crashed.
Proof.
  intros Hp Hsum Hw. pose proof (main_parameters_spec stdin) as Hspec.
  unfold main. rewrite Hp in *. destruct Hspec as (_ & Hu & Hd & Hs).
  assert (En : NewGenerator 0 u d s = Ok (mkGenerator 0 u d s)).
  { unfold NewGenerator. cbv zeta. simpl. rewrite wrap32_sum, Hw.
    reflexivity. }
  rewrite En.
  pose proof (Generate_empty_range reader u d s _ Hu Hd Hs Hsum En) as Hg.
  destruct (Generate reader (mkGenerator 0 u d s) initial) as [[b|e|] s1];
    simpl in Hg; try discriminate Hg. reflexivity.
Qed.

Lemma main_crashes_on_wrapped_sum_witness :
  (main_parameters crashing_input = Some (Answer (0, 4294967295, 1, 0) []) /\
   0 < 4294967295 + 1 + 0 /\ wrap32 (4294967295 + 1 + 0) = 0) /\
  main (constant_tape 0) crashing_input = Some Crashed.
Proof.
  split; [repeat split; vm_compute; reflexivity|].
  apply (main_crashes_on_wrapped_sum (constant_tape 0) crashing_input []
           4294967295 1 0); vm_compute; reflexivity.
Defined.

(** The worked example of the README, on a tape of its own. *)
Example main_readme_example :
  match main halving_tape readme_input with
  | Some (Printed r _) =>
      r.(password) = list_byte_of_string "ZN8>rtwvcbqkdc" /\
      r.(minBits) = 64 /\ r.(avgBits) = 76%float /\ r.(maxBits) = 88 /\
      r.(rating) = "Good"%string
  | _ => False
  end.
Proof. vm_compute. repeat split. Qed.
